(** * zktrie: the [types] package ([hash.go]) and the trie test wrapper

    A shallow embedding of [types/hash.go] and of the wrapper methods of the
    trie test file, with the properties the specification states about them
    and further properties read off the code.
    The trie the wrapper drives is not among the sources; it is modelled
    from the specification, and the scenarios of the test file are replayed
    on the model.

    Conventions of the embedding:
    - a Go [[32]byte] array is a [vec byte 32]; a slice [[]byte] is a
      [list byte]; [h[:]] is [vec_to_list h];
    - a [*big.Int] is a [Z]; the methods of [math/big] the code calls are
      modelled in module [big], and [hex.EncodeToString] in module [hex];
    - a Go [string] is a [string]; the conversions [[]byte(s)] and
      [string(b)] are [list_byte_of_string] and [string_of_list_byte];
    - a Go [error] is an [option error], [None] for [nil];
    - a nilable pointer [*Hash] is an [option Hash], [None] for [nil];
    - a call that may panic returns an [outcome]. *)

From Stdlib Require Import ZArith NArith List Strings.Byte Ascii String.
From Stdlib Require Import Decimal DecimalString DecimalN DecimalZ.
From Stdlib Require Import Lia Permutation.
From stdpp Require Import base tactics option list vector countable gmap.

Import ListNotations.
#[local] Open Scope Z_scope.

(** ** Errors *)

(** The error values of the two packages.  [fmt.Errorf] values are told apart
    by their message, which is what a constructor stands for. *)
Inductive error : Type :=
| hashNotInitErr
| errExpectedBytes (expected got : nat)
| errValueNotInField
| errCannotParse
| ErrEntryIndexAlreadyExists
| ErrKeyNotFound
| ErrNodeNotFound
| ErrReachedMaxLevel
| ErrInvalidField
| ErrInvalidNodeFound.

(** The result of a call that may panic. *)
Inductive outcome (A : Type) : Type :=
| Returned (a : A)
| Panicked.
Arguments Returned {A} a.
Arguments Panicked {A}.

(** ** Bytes and slices *)

Definition byte_of_N (n : N) : byte :=
  match Byte.of_N n with
  | Some b => b
  | None => x00
  end.

Definition byte_val (b : byte) : Z := Z.of_N (Byte.to_N b).

(** Go's builtin [copy(dst, src)] on a slice destination: the first
    [min (len dst) (len src)] elements of [dst] are overwritten. *)
Definition copy_slice (dst src : list byte) : list byte :=
  firstn (length dst) src ++ skipn (length src) dst.

(** [copy(a[:], src)] on an array destination [a]. *)
Fixpoint copy {n : nat} (dst : vec byte n) (src : list byte) : vec byte n :=
  match dst with
  | vnil => vnil
  | vcons d dst' =>
      match src with
      | [] => vcons d dst'
      | s :: src' => vcons s (copy dst' src')
      end
  end.

(** Modelled from the spec: [ReverseByteOrder] of [types/util.go], which is
    not among the sources; the specification says that the conversion between
    the little-endian array and the big-endian byte string reverses the
    bytes. *)
Definition ReverseByteOrder (b : list byte) : list byte := rev b.

(** ** The methods of [math/big] the package calls *)

Module big.

(** The value of a little-endian digit string in base 256. *)
Fixpoint le_value (l : list byte) : Z :=
  match l with
  | [] => 0
  | b :: l' => byte_val b + 256 * le_value l'
  end.

(** [z.SetBytes(buf)]: [buf] read as a big-endian unsigned integer. *)
Definition SetBytes (buf : list byte) : Z :=
  fold_left (fun acc b => acc * 256 + byte_val b) buf 0.

(** The little-endian base-256 digits of [n], most significant digit not
    zero; [fuel] bounds the number of digits. *)
Fixpoint le_digits (fuel : nat) (n : N) : list byte :=
  match fuel with
  | O => []
  | S fuel' =>
      if N.eqb n 0 then []
      else byte_of_N (N.modulo n 256) :: le_digits fuel' (N.div n 256)
  end.

(** [x.Bytes()]: the absolute value of [x] as a big-endian byte slice
    without leading zeros (empty for zero). *)
Definition Bytes (x : Z) : list byte :=
  let n := Z.abs_N x in
  rev (le_digits (N.to_nat (N.size n)) n).

(** [x.Cmp(y)]: [-1], [0] or [1]. *)
Definition Cmp (x y : Z) : Z :=
  match Z.compare x y with
  | Lt => -1
  | Eq => 0
  | Gt => 1
  end.

(** [x.String()]: the decimal representation, with a leading minus sign
    for a negative value. *)
Definition String (x : Z) : string :=
  NilZero.string_of_int (Z.to_int x).

(** The digits of [SetString] in base 10: one decimal digit at least and
    nothing else. *)
Definition parse_digits (s : string) : option Z :=
  match NilZero.uint_of_string s with
  | Some d => Some (Z.of_uint d)
  | None => None
  end.

(** [new(big.Int).SetString(s, 10)]: an optional sign, then decimal
    digits up to the end of the string.  [None] stands for [ok = false]. *)
Definition SetString10 (s : string) : option Z :=
  match s with
  | EmptyString => None
  | String.String c rest =>
      if Ascii.eqb c "-" then option_map Z.opp (parse_digits rest)
      else if Ascii.eqb c "+" then parse_digits rest
      else parse_digits s
  end.

End big.

(** ** [encoding/hex] *)

Module hex.

Definition hextable : string := "0123456789abcdef".

(** [hextable[n]] *)
Definition digit (n : N) : ascii :=
  match String.get (N.to_nat n) hextable with
  | Some c => c
  | None => "0"%char
  end.

(** [hex.EncodeToString(src)]: for each byte [v] the two characters
    [hextable[v>>4]] and [hextable[v&0x0f]]. *)
Fixpoint EncodeToString (src : list byte) : string :=
  match src with
  | [] => EmptyString
  | v :: src' =>
      String.String (digit (N.shiftr (Byte.to_N v) 4))
        (String.String (digit (N.land (Byte.to_N v) 15)) (EncodeToString src'))
  end.

End hex.

(** ** [hash.go] *)

Definition Q : Z :=
  21888242871839275222246405745257275088548364400416034343698204186575808495617.

(** The decimal text of the modulus in [init]. *)
Definition qString : string :=
  "21888242871839275222246405745257275088548364400416034343698204186575808495617".

(** [init()]: the value [Q] is set to, parsed from [qString]; the package
    panics when the text does not parse. *)
Definition init : outcome Z :=
  match big.SetString10 qString with
  | Some q => Returned q
  | None => Panicked
  end.

(** The type of the hash hook: from a slice of big integers to a big
    integer and an error. *)
Definition HashFn : Type := list Z -> Z * option error.

Definition dummyHash : HashFn := fun _ => (0, Some hashNotInitErr).

(** The package variables [hashScheme] and [setHashScheme]: the installed
    hook and whether the [sync.Once] has fired. *)
Record Globals : Type := mkGlobals {
  hashScheme : HashFn;
  setHashScheme : bool
}.

(** The package state when the program starts. *)
Definition globals0 : Globals :=
  {| hashScheme := dummyHash; setHashScheme := false |}.

(** [sync.Once.Do]: the action runs on the first call only. *)
Definition once_do (action : Globals -> Globals) (g : Globals) : Globals :=
  if setHashScheme g then g
  else
    let g' := action g in
    {| hashScheme := hashScheme g'; setHashScheme := true |}.

Definition InitHashScheme (f : HashFn) (g : Globals) : Globals :=
  once_do (fun g0 => {| hashScheme := f; setHashScheme := setHashScheme g0 |}) g.

Definition CheckBigIntInField (a : Z) : bool :=
  Z.eqb (big.Cmp a Q) (-1).

Definition numCharPrint : nat := 8.

Definition HashByteLen : nat := 32.

(** [type Hash [HashByteLen]byte], little-endian. *)
Definition Hash : Type := vec byte HashByteLen.

Definition HashZero : Hash := vreplicate HashByteLen x00.
#[global] Arguments HashZero : simpl never.

(** [h.BigInt()] *)
Definition Hash_BigInt (h : Hash) : Z :=
  big.SetBytes (ReverseByteOrder (vec_to_list h)).

(** [h.Bytes()] *)
Definition Hash_Bytes (h : Hash) : list byte :=
  let b := copy (vreplicate HashByteLen x00) (vec_to_list h) in
  ReverseByteOrder (vec_to_list b).

(** [NewHashFromBigInt(b)] *)
Definition NewHashFromBigInt (b : Z) : Hash :=
  copy (vreplicate HashByteLen x00) (ReverseByteOrder (big.Bytes b)).

(** [NewHashFromBytes(b)] *)
Definition NewHashFromBytes (b : list byte) : Hash :=
  copy (vreplicate HashByteLen x00) (ReverseByteOrder b).

(** [NewHashFromCheckedBytes(b)] *)
Definition NewHashFromCheckedBytes (b : list byte) : option Hash * option error :=
  if negb (Nat.eqb (length b) HashByteLen)
  then (None, Some (errExpectedBytes HashByteLen (length b)))
  else (Some (NewHashFromBytes b), None).

(** [NewBigIntFromHashBytes(b)] *)
Definition NewBigIntFromHashBytes (b : list byte) : option Z * option error :=
  if negb (Nat.eqb (length b) HashByteLen)
  then (None, Some (errExpectedBytes HashByteLen (length b)))
  else
    let bi := big.SetBytes b in
    if negb (CheckBigIntInField bi) then (None, Some errValueNotInField)
    else (Some bi, None).

(** [NewHashFromString(s)] *)
Definition NewHashFromString (s : string) : option Hash * option error :=
  match big.SetString10 s with
  | None => (None, Some errCannotParse)
  | Some bi => (Some (NewHashFromBigInt bi), None)
  end.

(** [h.MarshalText()] *)
Definition Hash_MarshalText (h : Hash) : list byte * option error :=
  (list_byte_of_string (big.String (Hash_BigInt h)), None).

(** [h.UnmarshalText(b)]: the receiver after the call and the error
    returned.  [ha[:]] dereferences [ha], which panics when [ha] is [nil]. *)
Definition Hash_UnmarshalText (h : Hash) (b : list byte) : outcome (Hash * option error) :=
  let '(ha, err) := NewHashFromString (string_of_list_byte b) in
  match ha with
  | None => Panicked
  | Some ha' => Returned (copy h (vec_to_list ha'), err)
  end.

(** [h.String()] *)
Definition Hash_String (h : Hash) : string :=
  let s := big.String (Hash_BigInt h) in
  if Nat.ltb (String.length s) numCharPrint then s
  else String.append (String.substring 0 numCharPrint s) "...".

(** [h.Hex()] *)
Definition Hash_Hex (h : Hash) : string := hex.EncodeToString (Hash_Bytes h).

(** * The trie

    The test file exercises [ZkTrieImpl] through a wrapper; the
    implementation itself ([trie/zk_trie_impl.go], [trie/zk_trie_node.go],
    [trie/zk_trie_database.go]) is not among the sources.  It is modelled
    here from sections 3 and 4 of the specification; the wrapper methods are
    embedded from the test file. *)

#[global] Instance byte_eq_dec : EqDecision byte := Byte.byte_eq_dec.
#[global] Instance byte_countable : Countable byte :=
  inj_countable Byte.to_N Byte.of_N Byte.of_to_N.

(** Modelled from the spec: [Byte32] of [types/byte32.go], a 32-byte
    big-endian value used for key preimages and value words. *)
Definition Byte32 : Type := vec byte 32.

(** A value or an error. *)
Inductive result (A : Type) : Type :=
| Ok (a : A)
| Err (e : error).
Arguments Ok {A} a.
Arguments Err {A} e.

#[global] Instance result_ret : MRet result := fun A a => Ok a.
#[global] Instance result_bind : MBind result := fun A B f m =>
  match m with
  | Ok a => f a
  | Err e => Err e
  end.

(** Modelled from the spec: the node variants of section 3.  The store
    holds nodes after decoding; section 3 states that the encodings are
    round-trip stable. *)
Inductive Node : Type :=
| NodeEmpty
| NodeParent (ChildL ChildR : Hash)
| NodeLeaf (NodeKey : Hash) (CompressedFlags : Z)
    (ValuePreimage : list Byte32) (KeyPreimage : option Byte32).

#[global] Instance Node_eq_dec : EqDecision Node.
Proof. solve_decision. Defined.

(** Modelled from the spec: the in-memory storage adapter of section 4.3, a
    mapping from hashes to nodes.  It is kept as the list of the [put]
    calls, most recent first, and [get] returns the most recent binding: the
    store is append-only from the trie's perspective, and an overwrite
    shadows the older binding. *)
Definition Database : Type := list (Hash * Node).

Fixpoint db_get (db : Database) (h : Hash) : option Node :=
  match db with
  | [] => None
  | (h', n) :: db' => if bool_decide (h' = h) then Some n else db_get db' h
  end.

Definition db_put (db : Database) (h : Hash) (n : Node) : Database :=
  (h, n) :: db.

(** Modelled from the spec: the trie state of section 2, item 4: the
    storage adapter, the current root hash and [maxLevels]. *)
Record ZkTrieImpl : Type := mkZkTrieImpl {
  db : Database;
  rootHash : Hash;
  maxLevels : nat
}.

(** Modelled from the spec: bit [i] of the little-endian bit expansion of a
    key hash, least significant bit first (section 9, key-bit indexing). *)
Definition key_bit (k : Hash) (i : nat) : bool :=
  Z.testbit (Hash_BigInt k) (Z.of_nat i).

(** Modelled from the spec: the value bytes [tryGet] returns, the value
    words of the leaf one after the other (section 4.4.1). *)
Definition value_bytes (vs : list Byte32) : list byte :=
  concat (map vec_to_list vs).

(** Modelled from the spec: the node hashes of section 3, which all route
    through the installed hash hook and fail when it fails.
    [valueHash flags words] is the hash of the value words salted by the
    flags, [leafHash nodeKey valueHash] the hash under the leaf domain tag,
    [parentHash left right] the hash under the parent domain tag. *)
Class NodeHasher : Type := {
  valueHash : Z -> list Byte32 -> result Hash;
  leafHash : Hash -> Hash -> result Hash;
  parentHash : Hash -> Hash -> result Hash
}.

Section ZkTrie.

Context {hasher : NodeHasher}.

(** Modelled from the spec: the canonical hash of a node (section 3); the
    key-preimage hint of a leaf is not part of it. *)
Definition NodeHash (n : Node) : result Hash :=
  match n with
  | NodeEmpty => Ok HashZero
  | NodeParent l r => parentHash l r
  | NodeLeaf k flags vs _ => vh ← valueHash flags vs; leafHash k vh
  end.

(** Modelled from the spec: [getNode] of section 6.  A zero reference is
    the empty node and is not looked up. *)
Definition GetNode (d : Database) (h : Hash) : result Node :=
  if bool_decide (h = HashZero) then Ok NodeEmpty
  else match db_get d h with
       | Some n => Ok n
       | None => Err ErrKeyNotFound
       end.

(** Modelled from the spec: loading the node of a reference during a path
    walk (section 4.4.5); a reference the store cannot resolve is
    [NodeNotFound]. *)
Definition load (d : Database) (h : Hash) : result Node :=
  match GetNode d h with
  | Ok n => Ok n
  | Err _ => Err ErrNodeNotFound
  end.

(** Modelled from the spec: [new(storage, rootHash, maxLevels)] of section
    6. *)
Definition NewZkTrieImplWithRoot (storage : Database) (root : Hash)
    (maxLevels : nat) : result ZkTrieImpl :=
  if bool_decide (root = HashZero) then Ok (mkZkTrieImpl storage root maxLevels)
  else match GetNode storage root with
       | Ok _ => Ok (mkZkTrieImpl storage root maxLevels)
       | Err _ => Err ErrNodeNotFound
       end.

(** Modelled from the spec: the path walk of section 4.4.5 from depth
    [depth], with [rem = maxLevels - depth] levels left; the result is the
    terminal node (a leaf or the empty node). *)
Fixpoint walk (d : Database) (key : Hash) (rem depth : nat) (h : Hash)
    : result Node :=
  n ← load d h;
  match n with
  | NodeParent l r =>
      match rem with
      | O => Err ErrReachedMaxLevel
      | S rem' => walk d key rem' (S depth) (if key_bit key depth then r else l)
      end
  | _ => Ok n
  end.

(** Modelled from the spec: [getLeafNode] of section 6. *)
Definition GetLeafNode (mt : ZkTrieImpl) (key : Hash) : result Node :=
  n ← walk (db mt) key (maxLevels mt) 0 (rootHash mt);
  match n with
  | NodeLeaf k _ _ _ => if bool_decide (k = key) then Ok n else Err ErrKeyNotFound
  | _ => Err ErrKeyNotFound
  end.

(** Modelled from the spec: [tryGet] of section 4.4.1.  The Go signature
    is [([]byte, error)]: the value is [nil] when there is an error. *)
Definition TryGet (mt : ZkTrieImpl) (key : Hash) : option (list byte) * option error :=
  match GetLeafNode mt key with
  | Ok (NodeLeaf _ _ vs _) => (Some (value_bytes vs), None)
  | Ok _ => (None, Some ErrKeyNotFound)
  | Err e => (None, Some e)
  end.

(** Modelled from the spec: the path visitor of section 4.4.4; the result
    is the list of the nodes [visit] is called on. *)
Fixpoint prove (d : Database) (key : Hash) (fromLevel rem depth : nat)
    (h : Hash) : result (list Node) :=
  n ← load d h;
  let here := if Nat.leb fromLevel depth then [n] else [] in
  match n with
  | NodeParent l r =>
      match rem with
      | O => Err ErrReachedMaxLevel
      | S rem' =>
          ns ← prove d key fromLevel rem' (S depth)
                 (if key_bit key depth then r else l);
          Ok (here ++ ns)
      end
  | _ => Ok here
  end.

(** Modelled from the spec: the parent node with [child] on the side the
    key bit [bit] selects ([0] left, [1] right) and [sibling] on the other
    side (section 3, invariant 2). *)
Definition parent_of (bit : bool) (child sibling : Hash) : Node :=
  if bit then NodeParent sibling child else NodeParent child sibling.

(** Modelled from the spec: a node is [put] under its content hash
    (section 3, lifecycle). *)
Definition addNode (d : Database) (n : Node) : result (Database * Hash) :=
  h ← NodeHash n; Ok (db_put d h n, h).

(** Modelled from the spec: the third case of section 4.4.2.  The slot at
    [depth] holds the leaf [oldLeaf] of hash [oldHash] with another key:
    parents are created downward until the bits of the two keys differ. *)
Fixpoint pushLeaf (d : Database) (newLeaf : Node) (newHash key : Hash)
    (oldHash oldKey : Hash) (rem depth : nat) : result (Database * Hash) :=
  match rem with
  | O => Err ErrReachedMaxLevel
  | S rem' =>
      if Bool.eqb (key_bit key depth) (key_bit oldKey depth) then
        '(d1, child) ← pushLeaf d newLeaf newHash key oldHash oldKey rem' (S depth);
        addNode d1 (parent_of (key_bit key depth) child HashZero)
      else
        let d1 := db_put d newHash newLeaf in
        addNode d1 (parent_of (key_bit key depth) newHash oldHash)
  end.

(** Modelled from the spec: the descent of section 4.4.2 with its three
    cases; the result is the store with the new nodes and the hash of the
    rewritten subtree. *)
Fixpoint addLeaf (d : Database) (newLeaf : Node) (newHash key : Hash)
    (rem depth : nat) (h : Hash) : result (Database * Hash) :=
  n ← load d h;
  match n with
  | NodeEmpty => Ok (db_put d newHash newLeaf, newHash)
  | NodeLeaf oldKey _ _ _ =>
      if bool_decide (oldKey = key) then
        if bool_decide (newHash = h) then Ok (d, h)
        else Ok (db_put d newHash newLeaf, newHash)
      else pushLeaf d newLeaf newHash key h oldKey rem depth
  | NodeParent l r =>
      match rem with
      | O => Err ErrReachedMaxLevel
      | S rem' =>
          let bit := key_bit key depth in
          '(d1, child) ← addLeaf d newLeaf newHash key rem' (S depth)
                           (if bit then r else l);
          addNode d1 (parent_of bit child (if bit then l else r))
      end
  end.

(** Modelled from the spec: [tryUpdate] of section 4.4.2.  A key outside
    the field is [InvalidField]; on any failure the trie is the one before
    the call. *)
Definition TryUpdate (mt : ZkTrieImpl) (key : Hash) (flags : Z)
    (vs : list Byte32) : ZkTrieImpl * option error :=
  if negb (CheckBigIntInField (Hash_BigInt key)) then (mt, Some ErrInvalidField)
  else
    let newLeaf := NodeLeaf key flags vs None in
    match NodeHash newLeaf with
    | Err e => (mt, Some e)
    | Ok newHash =>
        match addLeaf (db mt) newLeaf newHash key (maxLevels mt) 0 (rootHash mt) with
        | Err e => (mt, Some e)
        | Ok (d, root) => (mkZkTrieImpl d root (maxLevels mt), None)
        end
    end.

(** Modelled from the spec: whether a reference resolves to a leaf, for the
    collapse rule of section 4.4.3. *)
Definition is_leaf (d : Database) (h : Hash) : bool :=
  match GetNode d h with
  | Ok (NodeLeaf _ _ _ _) => true
  | _ => false
  end.

(** Modelled from the spec: the upward fixup of section 4.4.3 at one
    ancestor, whose child on the path of the key is now [child]: when one
    side is empty and the other is a single leaf, the ancestor is replaced
    by that leaf; otherwise the parent is rewritten with the new child. *)
Definition collapse (d : Database) (bit : bool) (child sibling : Hash)
    : result (Database * Hash) :=
  if bool_decide (child = HashZero) && is_leaf d sibling then Ok (d, sibling)
  else if bool_decide (sibling = HashZero) && is_leaf d child then Ok (d, child)
  else addNode d (parent_of bit child sibling).

(** Modelled from the spec: the descent of section 4.4.3: the leaf of the
    key becomes empty and the ancestors are fixed up on the way back. *)
Fixpoint rmLeaf (d : Database) (key : Hash) (rem depth : nat) (h : Hash)
    : result (Database * Hash) :=
  n ← load d h;
  match n with
  | NodeEmpty => Err ErrKeyNotFound
  | NodeLeaf k _ _ _ =>
      if bool_decide (k = key) then Ok (d, HashZero) else Err ErrKeyNotFound
  | NodeParent l r =>
      match rem with
      | O => Err ErrReachedMaxLevel
      | S rem' =>
          let bit := key_bit key depth in
          '(d1, child) ← rmLeaf d key rem' (S depth) (if bit then r else l);
          collapse d1 bit child (if bit then l else r)
      end
  end.

(** Modelled from the spec: [tryDelete] of section 4.4.3. *)
Definition TryDelete (mt : ZkTrieImpl) (key : Hash) : ZkTrieImpl * option error :=
  match rmLeaf (db mt) key (maxLevels mt) 0 (rootHash mt) with
  | Err e => (mt, Some e)
  | Ok (d, root) => (mkZkTrieImpl d root (maxLevels mt), None)
  end.

(** Modelled from the spec: [root()] of section 6. *)
Definition Root (mt : ZkTrieImpl) : Hash := rootHash mt.

(** ** Traces of operations *)

(** A mutation of the trie. *)
Inductive op : Type :=
| OpUpdate (key : Hash) (flags : Z) (vs : list Byte32)
| OpDelete (key : Hash).

Definition step (mt : ZkTrieImpl) (o : op) : ZkTrieImpl * option error :=
  match o with
  | OpUpdate key flags vs => TryUpdate mt key flags vs
  | OpDelete key => TryDelete mt key
  end.

(** The trie after a trace; an operation that fails leaves the trie as it
    was and the trace goes on. *)
Fixpoint run (mt : ZkTrieImpl) (ops : list op) : ZkTrieImpl :=
  match ops with
  | [] => mt
  | o :: ops' => run (fst (step mt o)) ops'
  end.

(** The effect of a successful operation on the set of live pairs. *)
Definition apply_op (o : op) (m : gmap Hash (Z * list Byte32))
    : gmap Hash (Z * list Byte32) :=
  match o with
  | OpUpdate key flags vs => <[key := (flags, vs)]> m
  | OpDelete key => delete key m
  end.

(** The live (nodeKey, value) pairs a trace leaves, from the pairs [m] live
    before it: only the operations that succeed count. *)
Fixpoint live (mt : ZkTrieImpl) (ops : list op) (m : gmap Hash (Z * list Byte32))
    : gmap Hash (Z * list Byte32) :=
  match ops with
  | [] => m
  | o :: ops' =>
      live (fst (step mt o)) ops'
        (match snd (step mt o) with
         | None => apply_op o m
         | Some _ => m
         end)
  end.

(** The errors of a trace, one per operation. *)
Fixpoint errors (mt : ZkTrieImpl) (ops : list op) : list (option error) :=
  match ops with
  | [] => []
  | o :: ops' => snd (step mt o) :: errors (fst (step mt o)) ops'
  end.

(** The operation [AddWord] performs when the key is absent, and the
    operation of [DeleteWord]. *)
Definition add_op (kv : Byte32 * Byte32) : op :=
  OpUpdate (NewHashFromBytes (vec_to_list (fst kv))) 1 [snd kv].

Definition delete_op (k : Byte32) : op :=
  OpDelete (NewHashFromBytes (vec_to_list k)).

(** Every operation of a trace succeeded. *)
Definition all_ok (es : list (option error)) : Prop := Forall (fun e => e = None) es.

(** ** The shape of a trie *)

(** The tree a root hash stands for: a leaf carries its key and its leaf
    hash. *)
Inductive tree : Type :=
| TEmpty
| TLeaf (key leaf_hash : Hash)
| TParent (l r : tree).

Fixpoint leaves (t : tree) : list (Hash * Hash) :=
  match t with
  | TEmpty => []
  | TLeaf k lh => [(k, lh)]
  | TParent l r => leaves l ++ leaves r
  end.

Fixpoint tree_hash (t : tree) : result Hash :=
  match t with
  | TEmpty => Ok HashZero
  | TLeaf _ lh => Ok lh
  | TParent l r => hl ← tree_hash l; hr ← tree_hash r; parentHash hl hr
  end.

(** A parent with [child] on the side [bit] selects. *)
Definition tparent_of (bit : bool) (child sibling : tree) : tree :=
  if bit then TParent sibling child else TParent child sibling.

(** [pushLeaf], [addLeaf], [collapse] and [rmLeaf] on trees. *)
Fixpoint push_tree (key lh oldKey oldHash : Hash) (rem depth : nat) : option tree :=
  match rem with
  | O => None
  | S rem' =>
      if Bool.eqb (key_bit key depth) (key_bit oldKey depth) then
        child ← push_tree key lh oldKey oldHash rem' (S depth);
        Some (tparent_of (key_bit key depth) child TEmpty)
      else Some (tparent_of (key_bit key depth) (TLeaf key lh) (TLeaf oldKey oldHash))
  end.

Fixpoint insert_tree (key lh : Hash) (rem depth : nat) (t : tree) {struct t}
    : option tree :=
  match t with
  | TEmpty => Some (TLeaf key lh)
  | TLeaf oldKey oldHash =>
      if bool_decide (oldKey = key) then Some (TLeaf key lh)
      else push_tree key lh oldKey oldHash rem depth
  | TParent l r =>
      match rem with
      | O => None
      | S rem' =>
          if key_bit key depth
          then r' ← insert_tree key lh rem' (S depth) r; Some (TParent l r')
          else l' ← insert_tree key lh rem' (S depth) l; Some (TParent l' r)
      end
  end.

Definition collapse_tree (bit : bool) (child sibling : tree) : tree :=
  match child, sibling with
  | TEmpty, TLeaf _ _ => sibling
  | TLeaf _ _, TEmpty => child
  | _, _ => tparent_of bit child sibling
  end.

Fixpoint remove_tree (key : Hash) (rem depth : nat) (t : tree) {struct t}
    : option tree :=
  match t with
  | TEmpty => None
  | TLeaf k _ => if bool_decide (k = key) then Some TEmpty else None
  | TParent l r =>
      match rem with
      | O => None
      | S rem' =>
          if key_bit key depth
          then r' ← remove_tree key rem' (S depth) r; Some (collapse_tree true r' l)
          else l' ← remove_tree key rem' (S depth) l; Some (collapse_tree false l' r)
      end
  end.

(** Invariants 2 and 3 of section 3 on a subtree rooted at [depth]: below a
    parent the keys of the left subtree have bit [depth] clear and those of
    the right subtree have it set, and a parent has two leaves at least
    below it. *)
Fixpoint canonical (depth : nat) (t : tree) : Prop :=
  match t with
  | TParent l r =>
      canonical (S depth) l /\ canonical (S depth) r /\
      (forall k lh, (k, lh) ∈ leaves l -> key_bit k depth = false) /\
      (forall k lh, (k, lh) ∈ leaves r -> key_bit k depth = true) /\
      (2 <= length (leaves l ++ leaves r))%nat
  | _ => True
  end.

(** The store holds the nodes of the tree under their hashes. *)
Fixpoint stored (d : Database) (t : tree) : Prop :=
  match t with
  | TEmpty => True
  | TLeaf k lh =>
      lh <> HashZero /\
      exists flags vs hint, db_get d lh = Some (NodeLeaf k flags vs hint)
  | TParent l r =>
      stored d l /\ stored d r /\
      exists hl hr h,
        tree_hash l = Ok hl /\ tree_hash r = Ok hr /\ parentHash hl hr = Ok h /\
        h <> HashZero /\ db_get d h = Some (NodeParent hl hr)
  end.

(** No hash collision happened among the nodes written to the store: no
    hash was bound to two different nodes, and no node was written under the
    zero hash, which stands for the empty node. *)
Definition collision_free (d : Database) : Prop :=
  Forall (fun e => fst e <> HashZero /\
                   Forall (fun e' => fst e' = fst e -> snd e' = snd e) d) d.

(** The leaf hash of a live pair. *)
Definition live_hash (m : gmap Hash (Z * list Byte32)) (k : Hash) : option Hash :=
  match m !! k with
  | Some (flags, vs) =>
      match NodeHash (NodeLeaf k flags vs None) with
      | Ok lh => Some lh
      | Err _ => None
      end
  | None => None
  end.

(** Invariant 4 of section 3: with [rem] levels left, no parent lies
    deeper. *)
Fixpoint fits (rem : nat) (t : tree) {struct t} : Prop :=
  match t with
  | TParent l r =>
      match rem with
      | O => False
      | S rem' => fits rem' l /\ fits rem' r
      end
  | _ => True
  end.

(** The trie holds the canonical tree of the live pairs [m], within
    [maxLevels], and every live pair has a leaf hash. *)
Definition represents (m : gmap Hash (Z * list Byte32)) (mt : ZkTrieImpl) : Prop :=
  exists t,
    canonical 0 t /\ fits (maxLevels mt) t /\
    stored (db mt) t /\ tree_hash t = Ok (rootHash mt) /\
    (forall k lh, (k, lh) ∈ leaves t <-> live_hash m k = Some lh) /\
    (forall k, is_Some (m !! k) -> is_Some (live_hash m k)).

End ZkTrie.

(** ** The wrapper of the test file

    [zkTrieImplTestWrapper] embeds a [*ZkTrieImpl] and calls its methods,
    which are not among the sources: the wrapper is embedded over any
    implementation [T] of them.  [TryGet] and [GetLeafNode] are lookups and
    return no new state. *)
Class ZkTrieMethods (T : Type) : Type := {
  impl_TryGet : T -> Hash -> option (list byte) * option error;
  impl_GetLeafNode : T -> Hash -> result Node;
  impl_TryUpdate : T -> Hash -> Z -> list Byte32 -> T * option error;
  impl_TryDelete : T -> Hash -> T * option error
}.

(** The trie modelled from the specification implements them. *)
#[global] Instance ZkTrieImpl_methods {hasher : NodeHasher} : ZkTrieMethods ZkTrieImpl := {|
  impl_TryGet := TryGet;
  impl_GetLeafNode := GetLeafNode;
  impl_TryUpdate := TryUpdate;
  impl_TryDelete := TryDelete
|}.

Section Wrapper.

Context {T : Type} {methods : ZkTrieMethods T}.

(** [mt.TryGet(key)] of the wrapper *)
Definition wrapper_TryGet (mt : T) (key : list byte)
    : option (list byte) * option error :=
  impl_TryGet mt (NewHashFromBytes key).

(** [mt.AddWord(kPreimage, vPreimage)] *)
Definition AddWord (mt : T) (kPreimage vPreimage : Byte32) : T * option error :=
  match fst (wrapper_TryGet mt (vec_to_list kPreimage)) with
  | Some _ => (mt, Some ErrEntryIndexAlreadyExists)
  | None =>
      impl_TryUpdate mt (NewHashFromBytes (vec_to_list kPreimage)) 1 [vPreimage]
  end.

(** [mt.GetLeafNodeByWord(kPreimage)] *)
Definition GetLeafNodeByWord (mt : T) (kPreimage : Byte32) : result Node :=
  impl_GetLeafNode mt (NewHashFromBytes (vec_to_list kPreimage)).

(** [mt.UpdateWord(kPreimage, vPreimage)] *)
Definition UpdateWord (mt : T) (kPreimage vPreimage : Byte32) : T * option error :=
  impl_TryUpdate mt (NewHashFromBytes (vec_to_list kPreimage)) 1 [vPreimage].

(** [mt.DeleteWord(kPreimage)] *)
Definition DeleteWord (mt : T) (kPreimage : Byte32) : T * option error :=
  impl_TryDelete mt (NewHashFromBytes (vec_to_list kPreimage)).

(** [AddWord] of every pair in turn, as the loops of the tests do, with the
    error of each call. *)
Fixpoint AddWords (mt : T) (kvs : list (Byte32 * Byte32))
    : T * list (option error) :=
  match kvs with
  | [] => (mt, [])
  | kv :: kvs' =>
      let '(mt1, e) := AddWord mt (fst kv) (snd kv) in
      let '(mt2, es) := AddWords mt1 kvs' in
      (mt2, e :: es)
  end.

(** [DeleteWord] of every key in turn. *)
Fixpoint DeleteWords (mt : T) (ks : list Byte32) : T * list (option error) :=
  match ks with
  | [] => (mt, [])
  | k :: ks' =>
      let '(mt1, e) := DeleteWord mt k in
      let '(mt2, es) := DeleteWords mt1 ks' in
      (mt2, e :: es)
  end.

End Wrapper.

(** [newZkTrieImpl(storage, maxLevels)] *)
Definition newZkTrieImpl (storage : Database) (maxLevels : nat) : result ZkTrieImpl :=
  NewZkTrieImplWithRoot storage HashZero maxLevels.

(** ** An executable hash hook for the examples *)

(** A hook that folds its inputs into one field element. *)
Definition toy_scheme : HashFn := fun xs =>
  (fold_left (fun acc x => (acc * 1000003 + x + 1) mod Q) xs 7, None).

(** The hash of a list of field elements under a hook; the result of the
    hook is checked to be a field element. *)
Definition hash_with (scheme : HashFn) (xs : list Z) : result Hash :=
  match scheme xs with
  | (v, None) =>
      if CheckBigIntInField v then Ok (NewHashFromBigInt v) else Err ErrInvalidField
  | (_, Some e) => Err e
  end.

(** Node hashes on top of a hook, with the domain tags 1 for leaves and 2
    for parents. *)
Definition hasher_of (scheme : HashFn) : NodeHasher := {|
  valueHash := fun flags vs =>
    hash_with scheme (flags :: map (fun w => big.SetBytes (vec_to_list w)) vs);
  leafHash := fun k vh => hash_with scheme [1; Hash_BigInt k; Hash_BigInt vh];
  parentHash := fun l r => hash_with scheme [2; Hash_BigInt l; Hash_BigInt r]
|}.

(** Modelled from the spec: [NewByte32FromBytes] of [types/byte32.go], the
    32-byte big-endian value of a shorter byte string (section 8). *)
Definition NewByte32FromBytes (b : list byte) : Byte32 :=
  let le : vec byte 32 := copy (vreplicate 32 x00) (rev b) in
  copy (vreplicate 32 x00) (rev (vec_to_list le)).

(** A fresh trie over an empty store, as [newTestingMerkle] builds it. *)
Definition fresh_trie (maxLevels : nat) : ZkTrieImpl :=
  mkZkTrieImpl [] HashZero maxLevels.

#[global] Instance collision_free_dec (d : Database) : Decision (collision_free d).
Proof. unfold collision_free. apply _. Defined.

(** The node hashes of the examples. *)
Definition toy_hasher : NodeHasher := hasher_of toy_scheme.

(** Node hashes with a collision: the leaf of the key 1 hashes to the zero
    hash, which stands for the empty node. *)
Definition colliding_hasher : NodeHasher := {|
  valueHash := @valueHash toy_hasher;
  leafHash := fun k vh =>
    if Z.eqb (Hash_BigInt k) 1 then Ok HashZero else @leafHash toy_hasher k vh;
  parentHash := @parentHash toy_hasher
|}.

(** Node hashes that fail on a parent whose left child is empty. *)
Definition failing_hasher : NodeHasher := {|
  valueHash := @valueHash toy_hasher;
  leafHash := @leafHash toy_hasher;
  parentHash := fun l r =>
    if bool_decide (l = HashZero) then Err ErrInvalidField
    else @parentHash toy_hasher l r
|}.

(** The words of the test file: [NewByte32FromBytes([]byte{b})], and a key
    that agrees with the key 1 on its twelve low bits. *)
Definition word (b : byte) : Byte32 := NewByte32FromBytes [b].

Definition far_word : Byte32 := NewByte32FromBytes [x10; x01].

(** [&zkt.Byte32{b}]: the array whose first byte is [b]. *)
Definition Byte32_lit (b : byte) : Byte32 := vcons b (vreplicate 31 x00).

(** [assertKeyDepth] of [TestMerkleTree_Deletion]: the number of nodes the
    path visitor calls [visit] on. *)
Definition keyDepth (mt : ZkTrieImpl) (key : Byte32) : result nat :=
  ns ← prove (db mt) (NewHashFromBytes (vec_to_list key)) 0 (maxLevels mt) 0 (rootHash mt);
  Ok (length ns).

(** The root after adding the pairs [(b, b)] for the bytes of [l]. *)
Definition root_after (l : list byte) : Hash :=
  Root (fst (AddWords (methods := @ZkTrieImpl_methods toy_hasher) (fresh_trie 10)
               (map (fun b => (word b, word b)) l))).

(** ** Normal forms of digit strings *)

(** A digit string in normal form: the most significant digit is not
    zero. *)
Definition normal_digits (l : list byte) : Prop := List.last l x01 <> x00.

(** ** Reading a hexadecimal numeral *)

(** The value of a lower-case hexadecimal digit. *)
Definition hex_digit_value (c : ascii) : option Z :=
  let n := Z.of_N (N_of_ascii c) in
  if (48 <=? n) && (n <=? 57) then Some (n - 48)
  else if (97 <=? n) && (n <=? 102) then Some (n - 87)
  else None.

(** The value of a string of lower-case hexadecimal digits, most
    significant digit first, on top of [acc]. *)
Fixpoint hex_value_acc (s : string) (acc : Z) : option Z :=
  match s with
  | EmptyString => Some acc
  | String.String c s' =>
      match hex_digit_value c with
      | Some d => hex_value_acc s' (acc * 16 + d)
      | None => None
      end
  end.

Definition hex_value (s : string) : option Z := hex_value_acc s 0.

(** * Properties of [hash.go] *)

(** ** Bytes, slices and arrays *)

Lemma byte_val_range (b : byte) : 0 <= byte_val b < 256.
Proof.
  unfold byte_val. pose proof (Byte.to_N_bounded b). lia.
Qed.

Lemma byte_val_x00 : byte_val x00 = 0.
Proof. reflexivity. Qed.

Lemma byte_val_zero (b : byte) : byte_val b = 0 -> b = x00.
Proof.
  unfold byte_val. intros H.
  assert (Hn : Byte.to_N b = Byte.to_N x00) by (simpl; lia).
  apply (f_equal Byte.of_N) in Hn. rewrite !Byte.of_to_N in Hn. congruence.
Qed.

Lemma byte_of_N_val (n : N) : (n < 256)%N -> byte_val (byte_of_N n) = Z.of_N n.
Proof.
  intros Hn. unfold byte_of_N, byte_val.
  destruct (Byte.of_N n) as [b|] eqn:Hb.
  - apply Byte.to_of_N in Hb. now rewrite Hb.
  - apply Byte.of_N_None_iff in Hb. lia.
Qed.

Lemma byte_of_N_of_val (b : byte) : byte_of_N (Z.to_N (byte_val b)) = b.
Proof.
  unfold byte_of_N, byte_val. rewrite N2Z.id, Byte.of_to_N. reflexivity.
Qed.

Lemma vec_to_list_copy {n} (dst : vec byte n) (src : list byte) :
  vec_to_list (copy dst src) = copy_slice (vec_to_list dst) src.
Proof.
  revert src. induction dst as [|d n dst IH]; intros src.
  - unfold copy_slice. now destruct src.
  - destruct src as [|s src]; [reflexivity|].
    cbn [copy]. rewrite !vec_to_list_cons, IH. reflexivity.
Qed.

Lemma copy_slice_full (dst src : list byte) :
  length src = length dst -> copy_slice dst src = src.
Proof.
  intros H. unfold copy_slice.
  rewrite <- H, firstn_all, H, skipn_all. apply app_nil_r.
Qed.

Lemma copy_full {n} (dst v : vec byte n) : copy dst (vec_to_list v) = v.
Proof.
  apply vec_to_list_inj2. rewrite vec_to_list_copy.
  apply copy_slice_full. now rewrite !length_vec_to_list.
Qed.

Lemma copy_slice_zeros (n : nat) (src : list byte) :
  (length src <= n)%nat ->
  copy_slice (replicate n x00) src = src ++ replicate (n - length src) x00.
Proof.
  intros H. unfold copy_slice. rewrite length_replicate.
  rewrite firstn_all2 by lia. f_equal. apply drop_replicate.
Qed.

Lemma copy_slice_zeros_long (n : nat) (src : list byte) :
  (n <= length src)%nat ->
  copy_slice (replicate n x00) src = firstn n src.
Proof.
  intros H. unfold copy_slice. rewrite length_replicate.
  rewrite drop_replicate. replace (n - length src)%nat with O by lia.
  apply app_nil_r.
Qed.

(** ** Base-256 digits *)

Lemma le_value_nonneg (l : list byte) : 0 <= big.le_value l.
Proof.
  induction l as [|b l IH]; simpl; [lia|].
  pose proof (byte_val_range b). lia.
Qed.

Lemma le_value_bound (l : list byte) : big.le_value l < 256 ^ Z.of_nat (length l).
Proof.
  induction l as [|b l IH]; [simpl; lia|].
  cbn [big.le_value length]. rewrite Nat2Z.inj_succ, Z.pow_succ_r by lia.
  pose proof (byte_val_range b). lia.
Qed.

Lemma le_value_app (l1 l2 : list byte) :
  big.le_value (l1 ++ l2) =
  big.le_value l1 + 256 ^ Z.of_nat (length l1) * big.le_value l2.
Proof.
  induction l1 as [|b l1 IH]; [simpl; lia|].
  cbn [app big.le_value length]. rewrite IH, Nat2Z.inj_succ, Z.pow_succ_r by lia.
  ring.
Qed.

Lemma le_value_zeros (n : nat) : big.le_value (replicate n x00) = 0.
Proof. induction n as [|n IH]; simpl; [reflexivity|]. rewrite IH. reflexivity. Qed.

Lemma SetBytes_fold (l : list byte) (acc : Z) :
  fold_left (fun a b => a * 256 + byte_val b) (rev l) acc =
  big.le_value l + 256 ^ Z.of_nat (length l) * acc.
Proof.
  revert acc. induction l as [|b l IH]; intros acc; [simpl; lia|].
  cbn [rev length big.le_value]. rewrite fold_left_app. cbn [fold_left].
  rewrite IH, Nat2Z.inj_succ, Z.pow_succ_r by lia. ring.
Qed.

(** Reading the reversed slice big-endian is reading the slice
    little-endian. *)
Lemma SetBytes_rev (l : list byte) : big.SetBytes (rev l) = big.le_value l.
Proof. unfold big.SetBytes. rewrite SetBytes_fold. lia. Qed.

Lemma SetBytes_nonneg (l : list byte) : 0 <= big.SetBytes l.
Proof.
  rewrite <- (rev_involutive l), SetBytes_rev. apply le_value_nonneg.
Qed.

Lemma digit_mod (b v : Z) : 0 <= b < 256 -> (b + 256 * v) mod 256 = b.
Proof.
  intros Hb. replace (b + 256 * v) with (b + v * 256) by ring.
  rewrite Z.mod_add by lia. now apply Z.mod_small.
Qed.

Lemma digit_div (b v : Z) : 0 <= b < 256 -> (b + 256 * v) / 256 = v.
Proof.
  intros Hb. replace (b + 256 * v) with (b + v * 256) by ring.
  rewrite Z.div_add by lia. rewrite Z.div_small by lia. lia.
Qed.

Lemma le_value_firstn (n : nat) (l : list byte) :
  big.le_value (firstn n l) = big.le_value l mod 256 ^ Z.of_nat n.
Proof.
  revert l. induction n as [|n IH]; intros l.
  - simpl. now rewrite Z.mod_1_r.
  - destruct l as [|b l].
    + simpl. now rewrite Z.mod_0_l by (apply Z.pow_nonzero; lia).
    + cbn [firstn big.le_value]. rewrite IH, Nat2Z.inj_succ, Z.pow_succ_r by lia.
      pose proof (byte_val_range b) as Hb.
      assert (Hp : 0 < 256 ^ Z.of_nat n) by (apply Z.pow_pos_nonneg; lia).
      rewrite Z.rem_mul_r by lia.
      now rewrite digit_mod, digit_div by exact Hb.
Qed.

(** With enough fuel the digits of [n] have value [n]. *)
Lemma le_digits_value (fuel : nat) (n : N) :
  (n < 2 ^ N.of_nat fuel)%N ->
  big.le_value (big.le_digits fuel n) = Z.of_N n.
Proof.
  revert n. induction fuel as [|fuel IH]; intros n Hn.
  - simpl in *. lia.
  - cbn [big.le_digits]. destruct (N.eqb_spec n 0) as [->|Hnz]; [reflexivity|].
    cbn [big.le_value].
    assert (Hm : (n mod 256 < 256)%N) by (apply N.mod_lt; lia).
    rewrite byte_of_N_val by exact Hm.
    rewrite IH.
    + pose proof (N.div_mod n 256 ltac:(lia)) as Hdm. lia.
    + rewrite Nat2N.inj_succ, N.pow_succ_r' in Hn.
      apply N.Div0.div_lt_upper_bound. lia.
Qed.

Lemma normal_digits_cons (b : byte) (l : list byte) :
  normal_digits (b :: l) -> l <> [] -> normal_digits l.
Proof. unfold normal_digits. destruct l; [congruence|]. auto. Qed.

Lemma normal_digits_pos (l : list byte) :
  normal_digits l -> l <> [] -> 0 < big.le_value l.
Proof.
  induction l as [|b l IH]; [congruence|]. intros Hn _.
  cbn [big.le_value]. pose proof (byte_val_range b) as Hb.
  destruct l as [|c l].
  - unfold normal_digits in Hn. simpl in *.
    destruct (Z.eq_dec (byte_val b) 0) as [Hz|]; [|lia].
    apply byte_val_zero in Hz. congruence.
  - assert (0 < big.le_value (c :: l)); [|lia].
    apply IH; [|congruence]. eapply normal_digits_cons; [eauto|congruence].
Qed.

(** The digits computed from a value are the normal form of any digit
    string of that value. *)
Lemma le_digits_normal (l : list byte) (fuel : nat) :
  normal_digits l ->
  (big.le_value l < 2 ^ Z.of_nat fuel) ->
  big.le_digits fuel (Z.to_N (big.le_value l)) = l.
Proof.
  revert fuel. induction l as [|b l IH]; intros fuel Hn Hf.
  - destruct fuel; reflexivity.
  - pose proof (normal_digits_pos _ Hn ltac:(congruence)) as Hpos.
    destruct fuel as [|fuel]; [change (2 ^ Z.of_nat 0) with 1 in Hf; lia|].
    cbn [big.le_digits]. destruct (N.eqb_spec (Z.to_N (big.le_value (b :: l))) 0) as [Hz|_]; [lia|].
    cbn [big.le_value] in *. pose proof (byte_val_range b) as Hb.
    pose proof (le_value_nonneg l) as Hl.
    assert (Hmod : (Z.to_N (byte_val b + 256 * big.le_value l) mod 256)%N
                   = Z.to_N (byte_val b)).
    { apply N2Z.inj. rewrite N2Z.inj_mod, !Z2N.id by lia. simpl Z.of_N.
      now apply digit_mod. }
    assert (Hdiv : (Z.to_N (byte_val b + 256 * big.le_value l) / 256)%N
                   = Z.to_N (big.le_value l)).
    { apply N2Z.inj. rewrite N2Z.inj_div, !Z2N.id by lia. simpl Z.of_N.
      now apply digit_div. }
    rewrite Hmod, Hdiv, byte_of_N_of_val. f_equal.
    destruct l as [|c l].
    + simpl. destruct fuel; reflexivity.
    + apply IH.
      * eapply normal_digits_cons; [eauto|congruence].
      * rewrite Nat2Z.inj_succ, Z.pow_succ_r in Hf by lia. lia.
Qed.

(** Every digit string is a normal one followed by zeros. *)
Lemma normal_digits_split (l : list byte) :
  exists l0 k, l = l0 ++ replicate k x00 /\ normal_digits l0.
Proof.
  induction l as [|x l IH] using rev_ind.
  - exists [], O. split; [reflexivity|]. unfold normal_digits. simpl. congruence.
  - destruct (Byte.byte_eq_dec x x00) as [->|Hx].
    + destruct IH as (l0 & k & -> & Hn). exists l0, (S k). split; [|exact Hn].
      rewrite <- app_assoc. f_equal.
      change [x00] with (replicate 1 x00). rewrite <- replicate_add.
      f_equal. lia.
    + exists (l ++ [x]), O. split; [now rewrite app_nil_r|].
      unfold normal_digits. now rewrite last_last.
Qed.

Lemma size_bound (n : N) : (n < 2 ^ N.of_nat (N.to_nat (N.size n)))%N.
Proof. rewrite N2Nat.id. apply N.size_gt. Qed.

(** [x.Bytes()] read back with [SetBytes] is the absolute value. *)
Lemma SetBytes_Bytes (x : Z) : big.SetBytes (big.Bytes x) = Z.abs x.
Proof.
  unfold big.Bytes. rewrite SetBytes_rev, le_digits_value by apply size_bound.
  apply N2Z.inj_abs_N.
Qed.

(** [SetBytes] followed by [Bytes] strips the leading zeros. *)
Lemma Bytes_SetBytes_rev (l0 : list byte) (k : nat) :
  normal_digits l0 ->
  big.Bytes (big.SetBytes (rev (l0 ++ replicate k x00))) = rev l0.
Proof.
  intros Hn. rewrite SetBytes_rev, le_value_app, le_value_zeros, Z.mul_0_r, Z.add_0_r.
  unfold big.Bytes. f_equal.
  pose proof (le_value_nonneg l0) as H0.
  replace (Z.abs_N (big.le_value l0)) with (Z.to_N (big.le_value l0))
    by (now rewrite Zabs2N.abs_N_nonneg).
  apply le_digits_normal; [exact Hn|].
  pose proof (size_bound (Z.to_N (big.le_value l0))) as Hs.
  apply N2Z.inj_lt in Hs. rewrite N2Z.inj_pow, Z2N.id in Hs by lia.
  rewrite nat_N_Z in Hs. exact Hs.
Qed.

Lemma le_value_copy_zeros (n : nat) (l : list byte) :
  big.le_value (copy_slice (replicate n x00) l) =
  big.le_value l mod 256 ^ Z.of_nat n.
Proof.
  destruct (Nat.le_gt_cases (length l) n) as [Hle|Hgt].
  - rewrite copy_slice_zeros by exact Hle.
    rewrite le_value_app, le_value_zeros, Z.mul_0_r, Z.add_0_r.
    symmetry. apply Z.mod_small. split; [apply le_value_nonneg|].
    eapply Z.lt_le_trans; [apply le_value_bound|].
    apply Z.pow_le_mono_r; lia.
  - rewrite copy_slice_zeros_long by lia. apply le_value_firstn.
Qed.

Lemma Hash_BigInt_le_value (h : Hash) :
  Hash_BigInt h = big.le_value (vec_to_list h).
Proof. unfold Hash_BigInt, ReverseByteOrder. apply SetBytes_rev. Qed.

Lemma Hash_BigInt_nonneg (h : Hash) : 0 <= Hash_BigInt h.
Proof. rewrite Hash_BigInt_le_value. apply le_value_nonneg. Qed.

Lemma Hash_BigInt_bound (h : Hash) : Hash_BigInt h < 2 ^ 256.
Proof.
  rewrite Hash_BigInt_le_value.
  pose proof (le_value_bound (vec_to_list h)) as H.
  rewrite length_vec_to_list in H. exact H.
Qed.

Lemma le_value_inj (l k : list byte) :
  length l = length k -> big.le_value l = big.le_value k -> l = k.
Proof.
  revert k. induction l as [|a l IH]; intros [|b k] Hlen H; simpl in *; try congruence.
  pose proof (byte_val_range a) as Ha. pose proof (byte_val_range b) as Hb.
  assert (Hab : byte_val a = byte_val b).
  { rewrite <- (digit_mod (byte_val a) (big.le_value l)) by exact Ha.
    rewrite H. now apply digit_mod. }
  assert (Hlk : big.le_value l = big.le_value k) by lia.
  f_equal.
  - rewrite <- (byte_of_N_of_val a), <- (byte_of_N_of_val b). now rewrite Hab.
  - apply IH; [lia|exact Hlk].
Qed.

Lemma Hash_BigInt_inj (h1 h2 : Hash) : Hash_BigInt h1 = Hash_BigInt h2 -> h1 = h2.
Proof.
  rewrite !Hash_BigInt_le_value. intros H. apply vec_to_list_inj2.
  apply le_value_inj; [|exact H]. now rewrite !length_vec_to_list.
Qed.

(** The integer of a hash built from an integer: the sign and the bits from
    [2^256] on are lost. *)
Lemma Hash_BigInt_NewHashFromBigInt (b : Z) :
  Hash_BigInt (NewHashFromBigInt b) = Z.abs b mod 2 ^ 256.
Proof.
  rewrite Hash_BigInt_le_value. unfold NewHashFromBigInt, ReverseByteOrder.
  rewrite vec_to_list_copy, vec_to_list_replicate, le_value_copy_zeros.
  rewrite <- SetBytes_rev, rev_involutive, SetBytes_Bytes. reflexivity.
Qed.

Lemma NewHashFromBigInt_BigInt (h : Hash) : NewHashFromBigInt (Hash_BigInt h) = h.
Proof.
  apply vec_to_list_inj2. unfold NewHashFromBigInt, Hash_BigInt, ReverseByteOrder.
  rewrite vec_to_list_copy, vec_to_list_replicate.
  destruct (normal_digits_split (vec_to_list h)) as (l0 & k & Hl & Hn).
  pose proof (length_vec_to_list h) as Hlen.
  rewrite Hl in *. rewrite Bytes_SetBytes_rev by exact Hn.
  rewrite rev_involutive. rewrite length_app, length_replicate in Hlen.
  rewrite copy_slice_zeros by lia. do 2 f_equal. lia.
Qed.

(** ** Decimal text *)

Lemma string_of_uint_head (d : uint) :
  d <> Nil ->
  exists c rest, NilZero.string_of_uint d = String.String c rest /\
                 Ascii.eqb c "-" = false /\ Ascii.eqb c "+" = false.
Proof.
  intros Hd. destruct d; [congruence|..]; simpl; eauto.
Qed.

Lemma parse_digits_string_of_uint (d : uint) :
  d <> Nil -> big.parse_digits (NilZero.string_of_uint d) = Some (Z.of_uint d).
Proof.
  intros Hd. unfold big.parse_digits. now rewrite NilZero.usu.
Qed.

(** Parsing the decimal text of an integer gives the integer back. *)
Lemma SetString10_String (z : Z) : big.SetString10 (big.String z) = Some z.
Proof.
  unfold big.String. destruct z as [|p|p]; [reflexivity|..]; cbn [Z.to_int NilZero.string_of_int].
  - pose proof (DecimalPos.Unsigned.to_uint_nonnil p) as Hd.
    destruct (string_of_uint_head _ Hd) as (c & rest & Hs & Hm & Hp).
    unfold big.SetString10. rewrite Hs, Hm, Hp, <- Hs.
    rewrite parse_digits_string_of_uint by exact Hd.
    unfold Z.of_uint. now rewrite DecimalPos.Unsigned.of_to.
  - pose proof (DecimalPos.Unsigned.to_uint_nonnil p) as Hd.
    cbn [big.SetString10]. rewrite Ascii.eqb_refl.
    rewrite parse_digits_string_of_uint by exact Hd.
    unfold Z.of_uint. now rewrite DecimalPos.Unsigned.of_to.
Qed.

Lemma substring_prefix (n : nat) (s : string) :
  (n <= String.length s)%nat ->
  exists r, s = String.append (String.substring 0 n s) r /\
            String.length (String.substring 0 n s) = n.
Proof.
  revert s. induction n as [|n IH]; intros s Hn.
  - exists s. destruct s; simpl; auto.
  - destruct s as [|c s]; [simpl in Hn; lia|].
    destruct (IH s) as (r & Hr & Hl); [simpl in Hn; lia|].
    exists r. cbn [String.substring String.length]. split.
    + change (String.String c s =
              String.String c (String.append (String.substring 0 n s) r)).
      f_equal. exact Hr.
    + f_equal. exact Hl.
Qed.

(** ** The hash hook *)

Lemma InitHashScheme_fired (f : HashFn) (g : Globals) :
  setHashScheme (InitHashScheme f g) = true.
Proof. unfold InitHashScheme, once_do. now destruct (setHashScheme g) eqn:E. Qed.

Lemma InitHashScheme_ignored (f : HashFn) (g : Globals) :
  setHashScheme g = true -> InitHashScheme f g = g.
Proof. intros H. unfold InitHashScheme, once_do. now rewrite H. Qed.

Lemma InitHashScheme_later (fs : list HashFn) (g : Globals) :
  setHashScheme g = true ->
  fold_left (fun g0 f' => InitHashScheme f' g0) fs g = g.
Proof.
  revert g. induction fs as [|f' fs IH]; intros g Hg; [reflexivity|].
  cbn [fold_left]. rewrite InitHashScheme_ignored by exact Hg. now apply IH.
Qed.

(** C3. The hash hook is installed at most once: in the initial package
    state every call of the hook returns the not-initialised error; the first
    [InitHashScheme f] installs [f]; after any further sequence [fs] of
    [InitHashScheme] calls the hook is still [f]. *)
Theorem InitHashScheme_installs_once (f : HashFn) (fs : list HashFn) (xs : list Z) :
  snd (hashScheme globals0 xs) = Some hashNotInitErr /\
  hashScheme (InitHashScheme f globals0) = f /\
  hashScheme (fold_left (fun g f' => InitHashScheme f' g) fs
                (InitHashScheme f globals0)) = f.
Proof.
  split; [reflexivity|]. split; [reflexivity|].
  rewrite InitHashScheme_later; [reflexivity|]. apply InitHashScheme_fired.
Qed.

(** ** Hashes and byte strings *)

Lemma Hash_Bytes_rev (h : Hash) : Hash_Bytes h = rev (vec_to_list h).
Proof. unfold Hash_Bytes, ReverseByteOrder. now rewrite copy_full. Qed.

Lemma NewHashFromBytes_rev (h : Hash) : NewHashFromBytes (rev (vec_to_list h)) = h.
Proof.
  unfold NewHashFromBytes, ReverseByteOrder. rewrite rev_involutive.
  apply copy_full.
Qed.

(** C4. [Bytes] is the byte reversal of the array, of length 32;
    [NewHashFromCheckedBytes] accepts it and gives the hash back; and a
    32-byte string [b] survives [NewHashFromBytes] followed by [Bytes]. *)
Theorem Hash_Bytes_roundtrip (h : Hash) (b : vec byte 32) :
  length (Hash_Bytes h) = 32%nat /\
  Hash_Bytes h = rev (vec_to_list h) /\
  NewHashFromCheckedBytes (Hash_Bytes h) = (Some h, None) /\
  Hash_Bytes (NewHashFromBytes (vec_to_list b)) = vec_to_list b.
Proof.
  assert (Hlen : length (Hash_Bytes h) = 32%nat).
  { rewrite Hash_Bytes_rev, length_rev. apply length_vec_to_list. }
  split; [exact Hlen|]. split; [apply Hash_Bytes_rev|]. split.
  - unfold NewHashFromCheckedBytes. rewrite Hlen. cbn [HashByteLen Nat.eqb negb].
    now rewrite Hash_Bytes_rev, NewHashFromBytes_rev.
  - rewrite Hash_Bytes_rev. unfold NewHashFromBytes, ReverseByteOrder.
    rewrite vec_to_list_copy, copy_slice_full.
    + apply rev_involutive.
    + now rewrite length_rev, !length_vec_to_list.
Qed.

(** ** The field check *)

Lemma CheckBigIntInField_lt (a : Z) : CheckBigIntInField a = true <-> a < Q.
Proof.
  unfold CheckBigIntInField, big.Cmp.
  destruct (Z.compare_spec a Q); simpl; split; intros; try lia; discriminate.
Qed.

(** On the integers the package produces itself, which are not negative, the
    check is membership in the field. *)
Lemma CheckBigIntInField_nonneg (a : Z) :
  0 <= a -> (CheckBigIntInField a = true <-> 0 <= a < Q).
Proof. rewrite CheckBigIntInField_lt. lia. Qed.

(** C5. [CheckBigIntInField] has no lower bound: the negative integer [-1]
    passes the check although it is not in [[0, Q)]. *)
Theorem CheckBigIntInField_negative :
  CheckBigIntInField (-1) = true /\ ~ (0 <= -1 < Q).
Proof. split; [reflexivity|lia]. Qed.

(** ** Text *)

Lemma Hash_String_HashZero : Hash_String HashZero = "0"%string.
Proof. reflexivity. Qed.

(** C7. [String] is the whole decimal text of the integer of the hash when
    that text has fewer than 8 characters, and otherwise its first 8
    characters followed by three dots; the zero hash prints as ["0"]. *)
Theorem Hash_String_spec (h : Hash) :
  let s := big.String (Hash_BigInt h) in
  (((String.length s < 8)%nat /\ Hash_String h = s) \/
   ((8 <= String.length s)%nat /\
    exists p r, s = String.append p r /\ String.length p = 8%nat /\
                Hash_String h = String.append p "...")) /\
  Hash_String HashZero = "0"%string.
Proof.
  intros s. split; [|apply Hash_String_HashZero].
  unfold Hash_String. fold s. unfold numCharPrint.
  destruct (Nat.ltb_spec (String.length s) 8) as [Hlt|Hge].
  - left. split; [exact Hlt|reflexivity].
  - right. split; [exact Hge|].
    destruct (substring_prefix 8 s Hge) as (r & Hr & Hl).
    exists (String.substring 0 8 s), r. auto.
Qed.

(** C8. [UnmarshalText] on a text that is not a decimal integer:
    [NewHashFromString] returns a nil hash with its error and the [copy]
    dereferences it. *)
Theorem Hash_UnmarshalText_panics (h : Hash) :
  NewHashFromString "x" = (None, Some errCannotParse) /\
  Hash_UnmarshalText h (list_byte_of_string "x") = Panicked.
Proof. split; reflexivity. Qed.

(** Whenever the text does not parse, the call panics. *)
Lemma Hash_UnmarshalText_unparsable (h : Hash) (b : list byte) :
  big.SetString10 (string_of_list_byte b) = None ->
  Hash_UnmarshalText h b = Panicked.
Proof.
  intros H. unfold Hash_UnmarshalText, NewHashFromString. now rewrite H.
Qed.

(** Whenever the call returns, it returns no error. *)
Lemma Hash_UnmarshalText_returns (h h' : Hash) (b : list byte) (e : option error) :
  Hash_UnmarshalText h b = Returned (h', e) -> e = None.
Proof.
  unfold Hash_UnmarshalText, NewHashFromString.
  destruct (big.SetString10 _); [|discriminate]. now intros [= _ <-].
Qed.

(** C9. For [b] not negative, the integer of [NewHashFromBigInt b] is
    [b mod 2^256]. *)
Theorem NewHashFromBigInt_mod (b : Z) :
  0 <= b -> Hash_BigInt (NewHashFromBigInt b) = b mod 2 ^ 256.
Proof.
  intros Hb. rewrite Hash_BigInt_NewHashFromBigInt. now rewrite Z.abs_eq.
Qed.

(** At [Q], which is outside the field, the hash is built and holds [Q]. *)
Lemma NewHashFromBigInt_mod_witness :
  0 <= Q /\ Hash_BigInt (NewHashFromBigInt Q) = Q mod 2 ^ 256.
Proof.
  split; [unfold Q; lia|]. apply (NewHashFromBigInt_mod Q). unfold Q. lia.
Defined.

(** A value of 257 bits loses its top bit, and a value outside the field is
    kept as it is. *)
Lemma NewHashFromBigInt_truncates :
  Hash_BigInt (NewHashFromBigInt (2 ^ 256 + 5)) = 5 /\
  Hash_BigInt (NewHashFromBigInt Q) = Q.
Proof.
  rewrite !Hash_BigInt_NewHashFromBigInt. split; reflexivity.
Qed.

(** C10. [UnmarshalText] applied to the text [MarshalText] gives for [h]
    returns no error and leaves [h] in the receiver, whatever the receiver
    [h0] held and whether or not the integer of [h] is below [Q]. *)
Theorem MarshalText_UnmarshalText (h h0 : Hash) :
  snd (Hash_MarshalText h) = None /\
  Hash_UnmarshalText h0 (fst (Hash_MarshalText h)) = Returned (h, None).
Proof.
  split; [reflexivity|].
  unfold Hash_UnmarshalText, Hash_MarshalText, NewHashFromString. cbn [fst].
  rewrite string_of_list_byte_of_string, SetString10_String.
  now rewrite NewHashFromBigInt_BigInt, copy_full.
Qed.

(** A hash whose integer is not a field element round-trips too. *)
Lemma MarshalText_UnmarshalText_above_Q :
  let h := NewHashFromBigInt (Q + 1) in
  CheckBigIntInField (Hash_BigInt h) = false /\
  Hash_UnmarshalText HashZero (fst (Hash_MarshalText h)) = Returned (h, None).
Proof.
  intros h. split.
  - unfold h. rewrite Hash_BigInt_NewHashFromBigInt. reflexivity.
  - unfold Hash_UnmarshalText, Hash_MarshalText, NewHashFromString. cbn [fst].
    rewrite string_of_list_byte_of_string, SetString10_String.
    now rewrite NewHashFromBigInt_BigInt, copy_full.
Qed.

(** * Further properties of [hash.go] *)

(** ** The modulus *)

(** [init] does not panic: the text parses, and [Q] is its value. *)
Lemma init_Q : init = Returned Q.
Proof. vm_compute. reflexivity. Qed.

(** ** Hashes as integers *)

(** X1. The integer of a hash lies in [[0, 2^256)], and two hashes with the
    same integer are the same hash. *)
Theorem Hash_BigInt_range_injective (h1 h2 : Hash) :
  0 <= Hash_BigInt h1 < 2 ^ 256 /\
  (Hash_BigInt h1 = Hash_BigInt h2 <-> h1 = h2).
Proof.
  split; [split; [apply Hash_BigInt_nonneg | apply Hash_BigInt_bound] |].
  split; [apply Hash_BigInt_inj | intros ->; reflexivity].
Qed.

(** X2. [NewHashFromBigInt] applied to the integer of a hash gives the hash
    back. *)
Theorem NewHashFromBigInt_inverts_BigInt (h : Hash) :
  NewHashFromBigInt (Hash_BigInt h) = h.
Proof. apply NewHashFromBigInt_BigInt. Qed.

(** X3. [NewHashFromBigInt] drops the sign of its argument: the integer of
    the hash is [|b| mod 2^256], and [- b] gives the hash of [b]. *)
Theorem NewHashFromBigInt_drops_sign (b : Z) :
  Hash_BigInt (NewHashFromBigInt b) = Z.abs b mod 2 ^ 256 /\
  NewHashFromBigInt (- b) = NewHashFromBigInt b.
Proof.
  split; [apply Hash_BigInt_NewHashFromBigInt |].
  apply Hash_BigInt_inj.
  rewrite !Hash_BigInt_NewHashFromBigInt, Z.abs_opp. reflexivity.
Qed.

Lemma SetBytes_le_value_rev (b : list byte) :
  big.SetBytes b = big.le_value (rev b).
Proof. rewrite <- (rev_involutive b) at 1. apply SetBytes_rev. Qed.

(** The integer of [NewHashFromBytes b], for a slice of any length. *)
Lemma Hash_BigInt_NewHashFromBytes (b : list byte) :
  Hash_BigInt (NewHashFromBytes b) = big.SetBytes b mod 2 ^ 256.
Proof.
  rewrite Hash_BigInt_le_value, SetBytes_le_value_rev.
  unfold NewHashFromBytes, ReverseByteOrder.
  rewrite vec_to_list_copy, vec_to_list_replicate.
  apply (le_value_copy_zeros 32).
Qed.

(** X4. [HashZero] is the hash of integer 0 and the only one;
    [NewHashFromBigInt] and [NewHashFromBytes] return it exactly for the
    multiples of [2^256], the empty slice among them. *)
Theorem HashZero_iff (h : Hash) (b : Z) (buf : list byte) :
  Hash_BigInt HashZero = 0 /\
  (h = HashZero <-> Hash_BigInt h = 0) /\
  (NewHashFromBigInt b = HashZero <-> Z.abs b mod 2 ^ 256 = 0) /\
  (NewHashFromBytes buf = HashZero <-> big.SetBytes buf mod 2 ^ 256 = 0).
Proof.
  assert (H0 : Hash_BigInt HashZero = 0) by reflexivity.
  assert (Hz : forall k : Hash, k = HashZero <-> Hash_BigInt k = 0).
  { intros k. split; [intros ->; exact H0 |].
    intros Hk. apply Hash_BigInt_inj. rewrite Hk, H0. reflexivity. }
  split; [exact H0 |]. split; [apply Hz |]. split.
  - rewrite Hz, Hash_BigInt_NewHashFromBigInt. reflexivity.
  - rewrite Hz, Hash_BigInt_NewHashFromBytes. reflexivity.
Qed.

(** ** Hashes from byte slices *)

(** X5. [NewHashFromBytes] reads a slice of any length as a big-endian
    integer modulo [2^256]: a short slice is extended with zeros, of a long
    one the last 32 bytes count. *)
Theorem NewHashFromBytes_BigInt (b : list byte) :
  Hash_BigInt (NewHashFromBytes b) = big.SetBytes b mod 2 ^ 256.
Proof. apply Hash_BigInt_NewHashFromBytes. Qed.

Lemma rev_replicate (n : nat) (x : byte) : rev (replicate n x) = replicate n x.
Proof.
  induction n as [|n IH]; [reflexivity |].
  rewrite replicate_S_end at 2. cbn [replicate rev]. rewrite IH. reflexivity.
Qed.

Lemma SetBytes_leading_zeros (n : nat) (b : list byte) :
  big.SetBytes (replicate n x00 ++ b) = big.SetBytes b.
Proof.
  rewrite !SetBytes_le_value_rev, rev_app_distr, le_value_app.
  rewrite rev_replicate, le_value_zeros. lia.
Qed.

Lemma Hash_Bytes_NewHashFromBytes (b : list byte) :
  length b = 32%nat -> Hash_Bytes (NewHashFromBytes b) = b.
Proof.
  intros Hl. rewrite Hash_Bytes_rev. unfold NewHashFromBytes, ReverseByteOrder.
  rewrite vec_to_list_copy, vec_to_list_replicate, copy_slice_full, rev_involutive.
  - reflexivity.
  - rewrite length_rev, length_replicate. exact Hl.
Qed.

(** X6. Two slices give the same hash exactly when their big-endian
    integers agree modulo [2^256]; so leading zero bytes do not count, and
    on 32-byte arrays, the key preimages of the test wrapper,
    [NewHashFromBytes] is injective. *)
Theorem NewHashFromBytes_eq_iff (b1 b2 : list byte) (n : nat) (k1 k2 : vec byte 32) :
  (NewHashFromBytes b1 = NewHashFromBytes b2 <->
   big.SetBytes b1 mod 2 ^ 256 = big.SetBytes b2 mod 2 ^ 256) /\
  NewHashFromBytes (replicate n x00 ++ b1) = NewHashFromBytes b1 /\
  (NewHashFromBytes (vec_to_list k1) = NewHashFromBytes (vec_to_list k2) <->
   k1 = k2).
Proof.
  assert (Hiff : forall c1 c2, NewHashFromBytes c1 = NewHashFromBytes c2 <->
            big.SetBytes c1 mod 2 ^ 256 = big.SetBytes c2 mod 2 ^ 256).
  { intros c1 c2. rewrite <- !Hash_BigInt_NewHashFromBytes. split.
    - intros ->. reflexivity.
    - apply Hash_BigInt_inj. }
  split; [apply Hiff |]. split.
  - apply Hiff. rewrite SetBytes_leading_zeros. reflexivity.
  - split; [| intros ->; reflexivity].
    intros H. apply (f_equal Hash_Bytes) in H.
    rewrite !Hash_Bytes_NewHashFromBytes in H by apply length_vec_to_list.
    apply vec_to_list_inj2. exact H.
Qed.

(** X7. [NewHashFromCheckedBytes] succeeds exactly on slices of 32 bytes:
    then [Bytes] of the hash is the slice; otherwise the hash is [nil] and
    the error reports the two lengths. *)
Theorem NewHashFromCheckedBytes_checks_length (b : list byte) :
  (length b = 32%nat /\
   exists h, NewHashFromCheckedBytes b = (Some h, None) /\ Hash_Bytes h = b) \/
  (length b <> 32%nat /\
   NewHashFromCheckedBytes b = (None, Some (errExpectedBytes 32 (length b)))).
Proof.
  unfold NewHashFromCheckedBytes, HashByteLen.
  destruct (Nat.eqb_spec (length b) 32) as [Hl | Hl]; [left | right]; split; auto.
  exists (NewHashFromBytes b). split; [reflexivity |].
  apply Hash_Bytes_NewHashFromBytes. exact Hl.
Qed.

Lemma le_digits_length (fuel : nat) (n : N) (k : nat) :
  (n < 256 ^ N.of_nat k)%N -> (length (big.le_digits fuel n) <= k)%nat.
Proof.
  revert n k. induction fuel as [|fuel IH]; intros n k Hn; cbn [big.le_digits].
  - cbn [length]. lia.
  - destruct (N.eqb_spec n 0) as [-> | Hnz]; [cbn [length]; lia |].
    destruct k as [|k].
    + change (256 ^ N.of_nat 0)%N with 1%N in Hn. lia.
    + cbn [length]. apply le_n_S, IH.
      apply N.Div0.div_lt_upper_bound.
      rewrite Nat2N.inj_succ, N.pow_succ_r' in Hn. exact Hn.
Qed.

Lemma length_Bytes (b : Z) :
  Z.abs b < 2 ^ 256 -> (length (big.Bytes b) <= 32)%nat.
Proof.
  intros Hb. unfold big.Bytes. rewrite length_rev.
  apply le_digits_length.
  change (256 ^ N.of_nat 32)%N with (Z.to_N (2 ^ 256)).
  pose proof (N2Z.inj_abs_N b) as Ha. lia.
Qed.

(** X8. For [|b| < 2^256], [Bytes] of [NewHashFromBigInt b] is the
    big-endian byte string of [|b|] padded with zero bytes on the left to 32
    bytes. *)
Theorem Hash_Bytes_NewHashFromBigInt (b : Z) :
  Z.abs b < 2 ^ 256 ->
  (length (big.Bytes b) <= 32)%nat /\
  Hash_Bytes (NewHashFromBigInt b) =
    replicate (32 - length (big.Bytes b)) x00 ++ big.Bytes b.
Proof.
  intros Hb. pose proof (length_Bytes b Hb) as Hl. split; [exact Hl |].
  rewrite Hash_Bytes_rev. unfold NewHashFromBigInt, ReverseByteOrder.
  rewrite vec_to_list_copy, vec_to_list_replicate.
  rewrite copy_slice_zeros by (rewrite length_rev; exact Hl).
  rewrite rev_app_distr, rev_involutive, rev_replicate, length_rev.
  reflexivity.
Qed.

(** At 258, of two bytes. *)
Lemma Hash_Bytes_NewHashFromBigInt_witness :
  Z.abs 258 < 2 ^ 256 /\
  (length (big.Bytes 258) <= 32)%nat /\
  Hash_Bytes (NewHashFromBigInt 258) =
    replicate (32 - length (big.Bytes 258)) x00 ++ big.Bytes 258.
Proof.
  split; [reflexivity |].
  apply (Hash_Bytes_NewHashFromBigInt 258). reflexivity.
Defined.

(** ** Field elements *)

Lemma SetBytes_Hash_Bytes (h : Hash) : big.SetBytes (Hash_Bytes h) = Hash_BigInt h.
Proof. rewrite Hash_Bytes_rev. reflexivity. Qed.

Lemma length_Hash_Bytes (h : Hash) : length (Hash_Bytes h) = 32%nat.
Proof. rewrite Hash_Bytes_rev, length_rev, length_vec_to_list. reflexivity. Qed.

(** X9. On [h.Bytes()], [NewBigIntFromHashBytes] returns the integer of [h]
    when it is below [Q], and no integer with the error of a value outside
    the field otherwise. *)
Theorem NewBigIntFromHashBytes_of_Bytes (h : Hash) :
  (Hash_BigInt h < Q /\
   NewBigIntFromHashBytes (Hash_Bytes h) = (Some (Hash_BigInt h), None)) \/
  (Q <= Hash_BigInt h /\
   NewBigIntFromHashBytes (Hash_Bytes h) = (None, Some errValueNotInField)).
Proof.
  unfold NewBigIntFromHashBytes.
  rewrite length_Hash_Bytes, SetBytes_Hash_Bytes. cbn [HashByteLen Nat.eqb negb].
  destruct (CheckBigIntInField (Hash_BigInt h)) eqn:Hc; cbn [negb].
  - left. split; [apply CheckBigIntInField_lt; exact Hc | reflexivity].
  - right. split; [| reflexivity].
    destruct (Z.lt_ge_cases (Hash_BigInt h) Q) as [Hlt | Hge]; [| exact Hge].
    apply CheckBigIntInField_lt in Hlt. congruence.
Qed.

(** X10. An integer [NewBigIntFromHashBytes] returns comes without error,
    from a slice of 32 bytes, lies in [[0, Q)], is the big-endian integer of
    the slice and the integer of the hash [NewHashFromBytes] builds from
    it. *)
Theorem NewBigIntFromHashBytes_in_field (b : list byte) (z : Z) (e : option error) :
  NewBigIntFromHashBytes b = (Some z, e) ->
  e = None /\ length b = 32%nat /\ 0 <= z < Q /\
  z = big.SetBytes b /\ Hash_BigInt (NewHashFromBytes b) = z.
Proof.
  unfold NewBigIntFromHashBytes, HashByteLen.
  destruct (Nat.eqb_spec (length b) 32) as [Hl | Hl]; cbn [negb]; [| discriminate].
  destruct (CheckBigIntInField (big.SetBytes b)) eqn:Hc; cbn [negb]; [| discriminate].
  intros H. injection H as <- <-.
  apply CheckBigIntInField_lt in Hc.
  pose proof (SetBytes_nonneg b) as H0.
  repeat split; auto.
  rewrite Hash_BigInt_NewHashFromBytes. apply Z.mod_small.
  split; [exact H0 |]. eapply Z.lt_trans; [exact Hc | reflexivity].
Qed.

(** At the 32-byte string of 5. *)
Lemma NewBigIntFromHashBytes_in_field_witness :
  NewBigIntFromHashBytes (replicate 31 x00 ++ [x05]) = (Some 5, None) /\
  (@None error = None /\ length (replicate 31 x00 ++ [x05]) = 32%nat /\
   0 <= 5 < Q /\ 5 = big.SetBytes (replicate 31 x00 ++ [x05]) /\
   Hash_BigInt (NewHashFromBytes (replicate 31 x00 ++ [x05])) = 5).
Proof.
  split; [reflexivity |].
  apply (NewBigIntFromHashBytes_in_field (replicate 31 x00 ++ [x05]) 5 None).
  reflexivity.
Defined.

(** X11. A field element survives the way through a hash: for [a] in
    [[0, Q)], the hash of [a] has integer [a], and [NewBigIntFromHashBytes]
    on its bytes returns [a]. *)
Theorem field_element_roundtrip (a : Z) :
  0 <= a -> CheckBigIntInField a = true ->
  Hash_BigInt (NewHashFromBigInt a) = a /\
  NewBigIntFromHashBytes (Hash_Bytes (NewHashFromBigInt a)) = (Some a, None).
Proof.
  intros H0 Hc. pose proof Hc as Hlt. apply CheckBigIntInField_lt in Hlt.
  assert (Hv : Hash_BigInt (NewHashFromBigInt a) = a).
  { rewrite Hash_BigInt_NewHashFromBigInt, Z.abs_eq by exact H0.
    apply Z.mod_small. split; [exact H0 |].
    eapply Z.lt_trans; [exact Hlt | reflexivity]. }
  split; [exact Hv |].
  unfold NewBigIntFromHashBytes.
  rewrite length_Hash_Bytes, SetBytes_Hash_Bytes, Hv, Hc. reflexivity.
Qed.

(** At [Q - 1], the largest field element. *)
Lemma field_element_roundtrip_witness :
  0 <= Q - 1 /\ CheckBigIntInField (Q - 1) = true /\
  Hash_BigInt (NewHashFromBigInt (Q - 1)) = Q - 1 /\
  NewBigIntFromHashBytes (Hash_Bytes (NewHashFromBigInt (Q - 1))) =
    (Some (Q - 1), None).
Proof.
  split; [discriminate |]. split; [reflexivity |].
  apply (field_element_roundtrip (Q - 1)); [discriminate | reflexivity].
Defined.

(** ** Decimal text *)

(** X12. [UnmarshalText] has two outcomes: the text parses to an integer
    [z], and the call returns with the receiver set to the hash of [z] and
    a [nil] error, whatever the receiver held; or the text does not parse,
    and the call panics.  It never returns an error. *)
Theorem Hash_UnmarshalText_outcome (h : Hash) (b : list byte) :
  (exists z, big.SetString10 (string_of_list_byte b) = Some z /\
     Hash_UnmarshalText h b = Returned (NewHashFromBigInt z, None)) \/
  (big.SetString10 (string_of_list_byte b) = None /\
   Hash_UnmarshalText h b = Panicked).
Proof.
  unfold Hash_UnmarshalText, NewHashFromString.
  destruct (big.SetString10 (string_of_list_byte b)) as [z |]; [left | right].
  - exists z. split; [reflexivity |]. rewrite copy_full. reflexivity.
  - split; reflexivity.
Qed.

(** X13. [NewHashFromString] accepts the decimal text of every integer,
    negative ones too, and returns the hash [NewHashFromBigInt] builds; the
    text of [- z] gives the hash of [z]. *)
Theorem NewHashFromString_of_decimal (z : Z) :
  NewHashFromString (big.String z) = (Some (NewHashFromBigInt z), None) /\
  NewHashFromString (big.String (- z)) = NewHashFromString (big.String z).
Proof.
  unfold NewHashFromString. rewrite !SetString10_String. split; [reflexivity |].
  f_equal. f_equal. apply Hash_BigInt_inj.
  rewrite !Hash_BigInt_NewHashFromBigInt, Z.abs_opp. reflexivity.
Qed.

(** X14. [MarshalText] is injective: two hashes with the same text are the
    same hash. *)
Theorem Hash_MarshalText_injective (h1 h2 : Hash) :
  fst (Hash_MarshalText h1) = fst (Hash_MarshalText h2) <-> h1 = h2.
Proof.
  split; [| intros ->; reflexivity].
  unfold Hash_MarshalText. cbn [fst]. intros H.
  apply (f_equal string_of_list_byte) in H.
  rewrite !string_of_list_byte_of_string in H.
  apply (f_equal big.SetString10) in H.
  rewrite !SetString10_String in H.
  apply Hash_BigInt_inj. congruence.
Qed.

(** *** The length of decimal text *)

Lemma of_uint_acc_bounds (d : uint) (acc : positive) :
  Z.pos acc * 10 ^ Z.of_nat (nb_digits d) <= Z.pos (Pos.of_uint_acc d acc) /\
  Z.pos (Pos.of_uint_acc d acc) < (Z.pos acc + 1) * 10 ^ Z.of_nat (nb_digits d).
Proof.
  revert acc. induction d as [|d IH|d IH|d IH|d IH|d IH|d IH|d IH|d IH|d IH|d IH];
    intros acc; cbn [Pos.of_uint_acc nb_digits];
    [change (10 ^ Z.of_nat 0) with 1; lia | ..];
    rewrite Nat2Z.inj_succ, Z.pow_succ_r by lia;
    match goal with
    | |- context [Pos.of_uint_acc d ?a] => specialize (IH a)
    end;
    rewrite ?Pos2Z.inj_add, ?Pos2Z.inj_mul in IH;
    assert (0 < 10 ^ Z.of_nat (nb_digits d)) by (apply Z.pow_pos_nonneg; lia);
    nia.
Qed.

(** The decimal digits of a positive number do not start with 0. *)
Lemma to_uint_not_D0 (p : positive) (d : uint) : Pos.to_uint p <> D0 d.
Proof.
  intros H.
  assert (Hn : unorm (Pos.to_uint p) = Pos.to_uint p).
  { change (Pos.to_uint p) with (N.to_uint (N.pos p)).
    rewrite <- (DecimalN.Unsigned.to_of (N.to_uint (N.pos p))).
    rewrite DecimalN.Unsigned.of_to. reflexivity. }
  rewrite H in Hn. destruct d as [|d|d|d|d|d|d|d|d|d|d];
    [apply (DecimalPos.Unsigned.to_uint_nonzero p); exact H | ..];
    match type of Hn with
    | unorm (D0 ?l) = _ =>
        assert (Hl : l <> Nil) by discriminate;
        pose proof (DecimalFacts.nb_digits_unorm l Hl) as Hle;
        change (unorm (D0 l)) with (unorm l) in Hn;
        rewrite Hn in Hle; cbn [nb_digits] in Hle; lia
    end.
Qed.

(** A positive number of [m + 1] decimal digits lies in
    [[10^m, 10^(m+1))]. *)
Lemma to_uint_bounds (p : positive) :
  exists m, nb_digits (Pos.to_uint p) = S m /\
            10 ^ Z.of_nat m <= Z.pos p < 10 ^ Z.of_nat (S m).
Proof.
  pose proof (DecimalPos.Unsigned.of_to p) as Hof.
  pose proof (to_uint_not_D0 p) as H0.
  destruct (Pos.to_uint p) as [|d|d|d|d|d|d|d|d|d|d];
    [discriminate | exfalso; apply (H0 d); reflexivity | ..];
    exists (nb_digits d); (split; [reflexivity |]);
    cbn [Pos.of_uint] in Hof; injection Hof as Hof;
    match type of Hof with
    | Pos.of_uint_acc d ?a = _ => pose proof (of_uint_acc_bounds d a) as Hb
    end;
    rewrite Hof in Hb;
    rewrite Nat2Z.inj_succ, Z.pow_succ_r by lia;
    assert (0 < 10 ^ Z.of_nat (nb_digits d)) by (apply Z.pow_pos_nonneg; lia);
    nia.
Qed.

Lemma length_string_of_uint (d : uint) :
  String.length (NilEmpty.string_of_uint d) = nb_digits d.
Proof.
  induction d; cbn [NilEmpty.string_of_uint String.length nb_digits];
    congruence.
Qed.

Lemma length_String_pos (p : positive) :
  String.length (big.String (Z.pos p)) = nb_digits (Pos.to_uint p).
Proof.
  unfold big.String. cbn [Z.to_int NilZero.string_of_int]. unfold Pos.to_int.
  pose proof (DecimalPos.Unsigned.to_uint_nonnil p) as Hn.
  unfold NilZero.string_of_uint.
  destruct (Pos.to_uint p) eqn:E; [congruence | ..];
    rewrite <- length_string_of_uint; reflexivity.
Qed.

(** The decimal text of a non-negative integer has at most [n + 1]
    characters exactly when the integer is below [10 ^ (n + 1)]. *)
Lemma length_String_le (z : Z) (n : nat) :
  0 <= z ->
  ((String.length (big.String z) <= S n)%nat <-> z < 10 ^ Z.of_nat (S n)).
Proof.
  intros Hz. destruct z as [|p|p]; [| | lia].
  - change (String.length (big.String 0)) with 1%nat.
    split; [intros _; apply Z.pow_pos_nonneg; lia | lia].
  - rewrite length_String_pos.
    destruct (to_uint_bounds p) as (m & -> & Hlo & Hhi). split.
    + intros Hle. eapply Z.lt_le_trans; [exact Hhi |].
      apply Z.pow_le_mono_r; lia.
    + intros Hlt. destruct (le_lt_dec m n) as [Hmn | Hmn]; [lia |].
      assert (10 ^ Z.of_nat (S n) <= 10 ^ Z.of_nat m)
        by (apply Z.pow_le_mono_r; lia).
      lia.
Qed.

Lemma length_append (s1 s2 : string) :
  String.length (String.append s1 s2) = (String.length s1 + String.length s2)%nat.
Proof.
  induction s1 as [|c s1 IH]; [reflexivity |].
  change (String.append (String.String c s1) s2)
    with (String.String c (String.append s1 s2)).
  cbn [String.length]. rewrite IH. reflexivity.
Qed.

(** X15. [String] prints the integer of the hash in full exactly when it is
    below [10^7]; from [10^7] on the result has 11 characters, the first 8
    digits and three dots. *)
Theorem Hash_String_exact (h : Hash) :
  (Hash_BigInt h < 10 ^ 7 /\ Hash_String h = big.String (Hash_BigInt h)) \/
  (10 ^ 7 <= Hash_BigInt h /\
   String.length (Hash_String h) = 11%nat /\
   Hash_String h =
     String.append (String.substring 0 8 (big.String (Hash_BigInt h))) "...").
Proof.
  pose proof (length_String_le (Hash_BigInt h) 6 (Hash_BigInt_nonneg h)) as Hlen.
  change (10 ^ Z.of_nat 7) with (10 ^ 7) in Hlen.
  unfold Hash_String, numCharPrint.
  destruct (Nat.ltb_spec (String.length (big.String (Hash_BigInt h))) 8) as [Hs | Hs].
  - left. split; [apply Hlen; lia | reflexivity].
  - right. split; [| split; [| reflexivity]].
    + destruct (Z.lt_ge_cases (Hash_BigInt h) (10 ^ 7)) as [Hlt | Hge]; [| exact Hge].
      apply Hlen in Hlt. lia.
    + destruct (substring_prefix 8 _ Hs) as (r & _ & Hp).
      rewrite length_append, Hp. reflexivity.
Qed.

(** ** Hexadecimal text *)

Lemma hex_digits_byte (v : byte) :
  hex_digit_value (hex.digit (N.shiftr (Byte.to_N v) 4)) = Some (byte_val v / 16) /\
  hex_digit_value (hex.digit (N.land (Byte.to_N v) 15)) = Some (byte_val v mod 16).
Proof. destruct v; vm_compute; split; reflexivity. Qed.

Lemma hex_value_EncodeToString (l : list byte) (acc : Z) :
  hex_value_acc (hex.EncodeToString l) acc =
  Some (fold_left (fun a b => a * 256 + byte_val b) l acc).
Proof.
  revert acc. induction l as [|v l IH]; intros acc; [reflexivity |].
  cbn [hex.EncodeToString hex_value_acc fold_left].
  destruct (hex_digits_byte v) as [-> ->]. rewrite IH. do 2 f_equal.
  pose proof (Z.div_mod (byte_val v) 16). lia.
Qed.

Lemma length_EncodeToString (l : list byte) :
  String.length (hex.EncodeToString l) = (2 * length l)%nat.
Proof.
  induction l as [|v l IH]; [reflexivity |].
  cbn [hex.EncodeToString String.length length]. lia.
Qed.

Lemma hex_value_Hash_Hex (h : Hash) : hex_value (Hash_Hex h) = Some (Hash_BigInt h).
Proof.
  unfold hex_value, Hash_Hex. rewrite hex_value_EncodeToString.
  f_equal. apply SetBytes_Hash_Bytes.
Qed.

(** X16. [Hex] is the integer of the hash written with 64 lower-case
    hexadecimal digits, most significant first; two hashes with the same
    [Hex] are the same hash. *)
Theorem Hash_Hex_spec (h1 h2 : Hash) :
  String.length (Hash_Hex h1) = 64%nat /\
  hex_value (Hash_Hex h1) = Some (Hash_BigInt h1) /\
  (Hash_Hex h1 = Hash_Hex h2 <-> h1 = h2).
Proof.
  split; [| split].
  - unfold Hash_Hex. rewrite length_EncodeToString, length_Hash_Bytes. reflexivity.
  - apply hex_value_Hash_Hex.
  - split; [| intros ->; reflexivity].
    intros H. apply (f_equal hex_value) in H.
    rewrite !hex_value_Hash_Hex in H. apply Hash_BigInt_inj. congruence.
Qed.

(** ** The keys of the test wrapper *)

Lemma SetBytes_app (pre b : list byte) :
  big.SetBytes (pre ++ b) =
  big.SetBytes pre * 256 ^ Z.of_nat (length b) + big.SetBytes b.
Proof.
  rewrite !SetBytes_le_value_rev, rev_app_distr, le_value_app, length_rev. lia.
Qed.

Lemma NewHashFromBytes_last_word (pre : list byte) (k : vec byte 32) :
  NewHashFromBytes (pre ++ vec_to_list k) = NewHashFromBytes (vec_to_list k).
Proof.
  apply Hash_BigInt_inj. rewrite !Hash_BigInt_NewHashFromBytes.
  rewrite SetBytes_app, length_vec_to_list.
  change (256 ^ Z.of_nat 32) with (2 ^ 256).
  rewrite Z.add_comm, Z.mod_add by discriminate. reflexivity.
Qed.

Lemma NewHashFromBytes_leading_zeros (n : nat) (key : list byte) :
  NewHashFromBytes (replicate n x00 ++ key) = NewHashFromBytes key.
Proof.
  apply Hash_BigInt_inj.
  rewrite !Hash_BigInt_NewHashFromBytes, SetBytes_leading_zeros. reflexivity.
Qed.

Section WrapperKeys.

Context {T : Type} {methods : ZkTrieMethods T}.

(** X17. The [TryGet] of the wrapper, which takes a key slice of any
    length, looks up by the integer of the key: zero bytes in front of the
    key do not change the result, and of a key longer than 32 bytes only the
    last 32 bytes count. *)
Theorem wrapper_TryGet_by_value (mt : T) (n : nat) (key pre : list byte)
    (k : Byte32) :
  wrapper_TryGet mt (replicate n x00 ++ key) = wrapper_TryGet mt key /\
  wrapper_TryGet mt (pre ++ vec_to_list k) = wrapper_TryGet mt (vec_to_list k).
Proof.
  unfold wrapper_TryGet.
  rewrite NewHashFromBytes_leading_zeros, NewHashFromBytes_last_word.
  split; reflexivity.
Qed.

End WrapperKeys.

(** * Properties of the trie *)

(** ** The store *)

Lemma db_get_elem (d : Database) (h : Hash) (n : Node) :
  db_get d h = Some n -> (h, n) ∈ d.
Proof.
  induction d as [|[h' n'] d IH]; [discriminate|]. cbn [db_get].
  case_bool_decide as Hh.
  - intros [= ->]. subst. left.
  - intros H. right. auto.
Qed.

Lemma collision_free_spec (d : Database) :
  collision_free d <->
  (forall h n, (h, n) ∈ d -> h <> HashZero) /\
  (forall h n n', (h, n) ∈ d -> (h, n') ∈ d -> n = n').
Proof.
  unfold collision_free. rewrite Forall_forall. split.
  - intros H. split.
    + intros h n Hin. exact (proj1 (H _ Hin)).
    + intros h n n' Hin Hin'. destruct (H _ Hin) as [_ Hall].
      rewrite Forall_forall in Hall. symmetry. exact (Hall _ Hin' eq_refl).
  - intros [Hz Hf] [h n] Hin. split; [exact (Hz _ _ Hin)|].
    rewrite Forall_forall. intros [h' n'] Hin' Heq. simpl in *. subst.
    eauto.
Qed.

Lemma collision_free_suffix (d d' : Database) :
  d `suffix_of` d' -> collision_free d' -> collision_free d.
Proof.
  intros [ext ->]. rewrite !collision_free_spec. intros [Hz Hf]. split.
  - intros h n Hin. apply (Hz h n). apply elem_of_app. auto.
  - intros h n n' Hin Hin'. apply (Hf h); apply elem_of_app; auto.
Qed.

Lemma db_get_unique (d : Database) (h : Hash) (n : Node) :
  collision_free d -> (h, n) ∈ d -> db_get d h = Some n.
Proof.
  rewrite collision_free_spec. intros [_ Hf] Hin.
  destruct (db_get d h) as [n'|] eqn:Hg.
  - apply db_get_elem in Hg. f_equal. eauto.
  - exfalso. clear Hf. induction d as [|[h' n'] d IH]; [inversion Hin|].
    cbn [db_get] in Hg. case_bool_decide as Hh; [discriminate|].
    apply elem_of_cons in Hin as [[= -> ->]|Hin]; [congruence|auto].
Qed.

Lemma db_get_mono (d d' : Database) (h : Hash) (n : Node) :
  d `suffix_of` d' -> collision_free d' ->
  db_get d h = Some n -> db_get d' h = Some n.
Proof.
  intros [ext ->] Hcf Hg. apply db_get_unique; [exact Hcf|].
  apply elem_of_app. right. now apply db_get_elem.
Qed.

Lemma db_get_put (d : Database) (h : Hash) (n : Node) :
  db_get (db_put d h n) h = Some n.
Proof. unfold db_put. cbn [db_get]. now rewrite bool_decide_eq_true_2. Qed.

Lemma db_put_suffix (d : Database) (h : Hash) (n : Node) :
  d `suffix_of` db_put d h n.
Proof. exists [(h, n)]. reflexivity. Qed.

Lemma collision_free_put_nonzero (d : Database) (h : Hash) (n : Node) :
  collision_free (db_put d h n) -> h <> HashZero.
Proof.
  rewrite collision_free_spec. intros [Hz _]. apply (Hz h n). left.
Qed.

Section ZkTrieProperties.

Context {hasher : NodeHasher}.

Lemma stored_mono (d d' : Database) (t : tree) :
  d `suffix_of` d' -> collision_free d' -> stored d t -> stored d' t.
Proof.
  intros Hs Hcf. induction t as [|k lh|l IHl r IHr]; cbn [stored].
  - auto.
  - intros (Hz & fl & vs & hint & Hg). split; [exact Hz|].
    exists fl, vs, hint. eapply db_get_mono; eauto.
  - intros (Hl & Hr & hl & hr & h & H1 & H2 & H3 & H4 & Hg).
    split; [auto|]. split; [auto|]. exists hl, hr, h.
    repeat split; try assumption. eapply db_get_mono; eauto.
Qed.

(** What [load] finds at the root of a stored tree. *)
Lemma load_stored (d : Database) (t : tree) (h : Hash) :
  stored d t -> tree_hash t = Ok h ->
  match t with
  | TEmpty => h = HashZero /\ load d h = Ok NodeEmpty
  | TLeaf k lh =>
      h = lh /\ h <> HashZero /\
      exists flags vs hint, load d h = Ok (NodeLeaf k flags vs hint)
  | TParent l r =>
      h <> HashZero /\
      exists hl hr, load d h = Ok (NodeParent hl hr) /\
                    tree_hash l = Ok hl /\ tree_hash r = Ok hr /\
                    parentHash hl hr = Ok h
  end.
Proof.
  unfold load, GetNode. destruct t as [|k lh|l r]; cbn [stored tree_hash].
  - intros _ [= <-]. now rewrite bool_decide_eq_true_2.
  - intros (Hz & fl & vs & hint & Hg) [= <-]. split; [reflexivity|].
    split; [exact Hz|]. exists fl, vs, hint.
    rewrite bool_decide_eq_false_2 by exact Hz. now rewrite Hg.
  - intros (_ & _ & hl & hr & h' & H1 & H2 & H3 & H4 & Hg).
    rewrite H1, H2. cbn. rewrite H3. intros [= <-]. split; [exact H4|].
    exists hl, hr. rewrite bool_decide_eq_false_2 by exact H4. now rewrite Hg.
Qed.


Lemma hash_zero_iff (d : Database) (t : tree) (h : Hash) :
  stored d t -> tree_hash t = Ok h -> (h = HashZero <-> t = TEmpty).
Proof.
  intros Hs Hh. pose proof (load_stored d t h Hs Hh) as H.
  destruct t; [tauto|..]; split; try discriminate; intros ->; tauto.
Qed.

Lemma is_leaf_stored (d : Database) (t : tree) (h : Hash) :
  stored d t -> tree_hash t = Ok h ->
  is_leaf d h = match t with TLeaf _ _ => true | _ => false end.
Proof.
  intros Hs Hh. pose proof (load_stored d t h Hs Hh) as H.
  unfold is_leaf. unfold load in H. destruct t as [|k lh|l r].
  - destruct H as [_ H]. now destruct (GetNode d h) as [[]|].
  - destruct H as (_ & _ & fl & vs & hint & H).
    now destruct (GetNode d h) as [[]|]; simplify_eq.
  - destruct H as (_ & hl & hr & H & _).
    now destruct (GetNode d h) as [[]|]; simplify_eq.
Qed.

Lemma addNode_Ok (d d' : Database) (n : Node) (h : Hash) :
  addNode d n = Ok (d', h) -> NodeHash n = Ok h /\ d' = db_put d h n.
Proof.
  unfold addNode. destruct (NodeHash n) as [h0|e]; cbn; [|discriminate].
  now intros [= <- <-].
Qed.

Lemma stored_put_leaf (d : Database) (lh key : Hash) (flags : Z)
    (vs : list Byte32) (hint : option Byte32) :
  collision_free (db_put d lh (NodeLeaf key flags vs hint)) ->
  stored (db_put d lh (NodeLeaf key flags vs hint)) (TLeaf key lh).
Proof.
  intros Hcf. cbn [stored]. split.
  - eapply collision_free_put_nonzero; eauto.
  - exists flags, vs, hint. apply db_get_put.
Qed.

(** Writing a parent above two stored subtrees. *)
Lemma addNode_parent (d d' : Database) (bit : bool) (ct st : tree)
    (ch sh h' : Hash) :
  addNode d (parent_of bit ch sh) = Ok (d', h') ->
  collision_free d' ->
  stored d ct -> stored d st -> tree_hash ct = Ok ch -> tree_hash st = Ok sh ->
  stored d' (tparent_of bit ct st) /\
  tree_hash (tparent_of bit ct st) = Ok h' /\
  d `suffix_of` d'.
Proof.
  intros Hadd Hcf Hct Hst Hch Hsh.
  apply addNode_Ok in Hadd as [Hh ->].
  pose proof (db_put_suffix d h' (parent_of bit ch sh)) as Hsuf.
  pose proof (collision_free_put_nonzero _ _ _ Hcf) as Hnz.
  pose proof (stored_mono _ _ _ Hsuf Hcf Hct) as Hct'.
  pose proof (stored_mono _ _ _ Hsuf Hcf Hst) as Hst'.
  split; [|split; [|exact Hsuf]].
  - destruct bit; cbn [tparent_of parent_of stored] in *;
      (split; [assumption|]; split; [assumption|]);
      [exists sh, ch, h' | exists ch, sh, h'];
      (repeat split; try assumption; apply db_get_put).
  - destruct bit; cbn [tparent_of parent_of tree_hash NodeHash] in *;
      rewrite ?Hch, ?Hsh; cbn; exact Hh.
Qed.

Lemma pushLeaf_refines (newLeaf : Node) (lh key oldHash oldKey : Hash)
    (rem depth : nat) (d d' : Database) (h' : Hash) :
  pushLeaf d newLeaf lh key oldHash oldKey rem depth = Ok (d', h') ->
  collision_free d' ->
  (exists flags vs hint, newLeaf = NodeLeaf key flags vs hint) ->
  stored d (TLeaf oldKey oldHash) ->
  exists t',
    push_tree key lh oldKey oldHash rem depth = Some t' /\
    stored d' t' /\ tree_hash t' = Ok h' /\ d `suffix_of` d'.
Proof.
  intros Hpush Hcf (fl & vs & hint & ->) Hold.
  revert depth d' h' Hpush Hcf.
  induction rem as [|rem IH]; intros depth d' h' Hpush Hcf; [discriminate|].
  cbn [pushLeaf push_tree] in *.
  destruct (Bool.eqb (key_bit key depth) (key_bit oldKey depth)).
  - destruct (pushLeaf d _ lh key oldHash oldKey rem (S depth))
      as [[d1 child]|e] eqn:Hrec; cbn in Hpush; [|discriminate].
    assert (Hsuf1 : d1 `suffix_of` d').
    { apply addNode_Ok in Hpush as [_ ->]. apply db_put_suffix. }
    destruct (IH (S depth) d1 child Hrec) as (ct & Hct & Hsto & Hhash & Hsuf).
    { eapply collision_free_suffix; eauto. }
    rewrite Hct. cbn.
    destruct (addNode_parent d1 d' (key_bit key depth) ct TEmpty child HashZero h'
                Hpush Hcf Hsto I Hhash eq_refl) as (Hs' & Hh' & Hsuf').
    eexists. split; [reflexivity|]. split; [exact Hs'|]. split; [exact Hh'|].
    etrans; eauto.
  - set (d1 := db_put d lh (NodeLeaf key fl vs hint)) in *.
    assert (Hsuf1 : d1 `suffix_of` d').
    { apply addNode_Ok in Hpush as [_ ->]. apply db_put_suffix. }
    assert (Hcf1 : collision_free d1) by (eapply collision_free_suffix; eauto).
    assert (Hsuf0 : d `suffix_of` d1) by apply db_put_suffix.
    destruct (addNode_parent d1 d' (key_bit key depth)
                (TLeaf key lh) (TLeaf oldKey oldHash) lh oldHash h'
                Hpush Hcf (stored_put_leaf _ _ _ _ _ _ Hcf1)
                (stored_mono _ _ _ Hsuf0 Hcf1 Hold) eq_refl eq_refl)
      as (Hs' & Hh' & Hsuf').
    eexists. split; [reflexivity|]. split; [exact Hs'|]. split; [exact Hh'|].
    etrans; eauto.
Qed.

Lemma addLeaf_unfold (d : Database) (newLeaf : Node) (lh key : Hash)
    (rem depth : nat) (h : Hash) :
  addLeaf d newLeaf lh key rem depth h =
  (n ← load d h;
   match n with
   | NodeEmpty => Ok (db_put d lh newLeaf, lh)
   | NodeLeaf oldKey _ _ _ =>
       if bool_decide (oldKey = key) then
         if bool_decide (lh = h) then Ok (d, h)
         else Ok (db_put d lh newLeaf, lh)
       else pushLeaf d newLeaf lh key h oldKey rem depth
   | NodeParent l r =>
       match rem with
       | O => Err ErrReachedMaxLevel
       | S rem' =>
           let bit := key_bit key depth in
           '(d1, child) ← addLeaf d newLeaf lh key rem' (S depth)
                            (if bit then r else l);
           addNode d1 (parent_of bit child (if bit then l else r))
       end
   end).
Proof. destruct rem; reflexivity. Qed.

Lemma addLeaf_refines (newLeaf : Node) (lh key : Hash) (t : tree)
    (rem depth : nat) (d d' : Database) (h h' : Hash) :
  addLeaf d newLeaf lh key rem depth h = Ok (d', h') ->
  collision_free d' ->
  (exists flags vs hint, newLeaf = NodeLeaf key flags vs hint) ->
  stored d t -> tree_hash t = Ok h ->
  exists t',
    insert_tree key lh rem depth t = Some t' /\
    stored d' t' /\ tree_hash t' = Ok h' /\ d `suffix_of` d'.
Proof.
  intros Hadd Hcf Hleaf. revert rem depth d d' h h' Hadd Hcf.
  induction t as [|k lh0|l IHl r IHr]; intros rem depth d d' h h' Hadd Hcf Hsto Hh;
    rewrite addLeaf_unfold in Hadd;
    pose proof (load_stored d _ h Hsto Hh) as Hload; cbn beta iota in Hload.
  - destruct Hload as [-> Hload]. rewrite Hload in Hadd. cbn in Hadd.
    injection Hadd as <- <-. destruct Hleaf as (fl & vs & hint & ->).
    exists (TLeaf key lh). split; [reflexivity|]. split; [now apply stored_put_leaf|].
    split; [reflexivity|apply db_put_suffix].
  - destruct Hload as (-> & Hnz & fl0 & vs0 & hint0 & Hload).
    rewrite Hload in Hadd. cbn in Hadd. cbn [insert_tree].
    case_bool_decide as Hk.
    + subst k. case_bool_decide as Hsame.
      * injection Hadd as <- <-. subst lh0.
        exists (TLeaf key lh). split; [reflexivity|]. split; [exact Hsto|].
        split; [reflexivity|reflexivity].
      * injection Hadd as <- <-. destruct Hleaf as (fl & vs & hint & ->).
        exists (TLeaf key lh). split; [reflexivity|].
        split; [now apply stored_put_leaf|].
        split; [reflexivity|apply db_put_suffix].
    + eapply pushLeaf_refines; eauto.
  - destruct Hload as (Hnz & hl & hr & Hload & Hhl & Hhr & Hph).
    rewrite Hload in Hadd. cbn in Hadd. cbn [insert_tree].
    destruct rem as [|rem]; [discriminate|].
    destruct Hsto as (Hsl & Hsr & _).
    destruct (key_bit key depth) eqn:Hbit.
    + destruct (addLeaf d newLeaf lh key rem (S depth) hr)
        as [[d1 child]|e] eqn:Hrec; cbn in Hadd; [|discriminate].
      assert (Hsuf1 : d1 `suffix_of` d').
      { apply addNode_Ok in Hadd as [_ ->]. apply db_put_suffix. }
      assert (Hcf1 : collision_free d1) by (eapply collision_free_suffix; eauto).
      destruct (IHr _ _ _ _ _ _ Hrec Hcf1 Hsr Hhr) as (r' & Hins & Hsr' & Hhr' & Hsuf).
      rewrite Hins. cbn.
      destruct (addNode_parent d1 d' true r' l child hl h' Hadd Hcf Hsr'
                  (stored_mono _ _ _ Hsuf Hcf1 Hsl) Hhr' Hhl)
        as (Hs' & Hh' & Hsuf').
      exists (TParent l r'). split; [reflexivity|]. split; [exact Hs'|].
      split; [exact Hh'|]. etrans; eauto.
    + destruct (addLeaf d newLeaf lh key rem (S depth) hl)
        as [[d1 child]|e] eqn:Hrec; cbn in Hadd; [|discriminate].
      assert (Hsuf1 : d1 `suffix_of` d').
      { apply addNode_Ok in Hadd as [_ ->]. apply db_put_suffix. }
      assert (Hcf1 : collision_free d1) by (eapply collision_free_suffix; eauto).
      destruct (IHl _ _ _ _ _ _ Hrec Hcf1 Hsl Hhl) as (l' & Hins & Hsl' & Hhl' & Hsuf).
      rewrite Hins. cbn.
      destruct (addNode_parent d1 d' false l' r child hr h' Hadd Hcf Hsl'
                  (stored_mono _ _ _ Hsuf Hcf1 Hsr) Hhl' Hhr)
        as (Hs' & Hh' & Hsuf').
      exists (TParent l' r). split; [reflexivity|]. split; [exact Hs'|].
      split; [exact Hh'|]. etrans; eauto.
Qed.


Lemma is_zero_stored (d : Database) (t : tree) (h : Hash) :
  stored d t -> tree_hash t = Ok h ->
  bool_decide (h = HashZero) = match t with TEmpty => true | _ => false end.
Proof.
  intros Hs Hh. pose proof (hash_zero_iff d t h Hs Hh) as Hz.
  case_bool_decide as Hd.
  - apply Hz in Hd. now subst.
  - destruct t; [exfalso; apply Hd; tauto|reflexivity..].
Qed.

Lemma collapse_refines (d d' : Database) (bit : bool) (ct st : tree)
    (ch sh h' : Hash) :
  collapse d bit ch sh = Ok (d', h') ->
  collision_free d' ->
  stored d ct -> stored d st -> tree_hash ct = Ok ch -> tree_hash st = Ok sh ->
  stored d' (collapse_tree bit ct st) /\
  tree_hash (collapse_tree bit ct st) = Ok h' /\
  d `suffix_of` d'.
Proof.
  intros Hcol Hcf Hct Hst Hch Hsh. unfold collapse in Hcol.
  rewrite (is_leaf_stored d ct ch Hct Hch), (is_leaf_stored d st sh Hst Hsh) in Hcol.
  rewrite (is_zero_stored d ct ch Hct Hch), (is_zero_stored d st sh Hst Hsh) in Hcol.
  destruct ct as [|ck clh|cl cr], st as [|sk slh|sl sr];
    cbn [collapse_tree andb] in *;
    first [ injection Hcol as <- <-; split; [assumption|]; split; [assumption|reflexivity]
          | eapply addNode_parent; eauto ].
Qed.

Lemma rmLeaf_unfold (d : Database) (key : Hash) (rem depth : nat) (h : Hash) :
  rmLeaf d key rem depth h =
  (n ← load d h;
   match n with
   | NodeEmpty => Err ErrKeyNotFound
   | NodeLeaf k _ _ _ =>
       if bool_decide (k = key) then Ok (d, HashZero) else Err ErrKeyNotFound
   | NodeParent l r =>
       match rem with
       | O => Err ErrReachedMaxLevel
       | S rem' =>
           let bit := key_bit key depth in
           '(d1, child) ← rmLeaf d key rem' (S depth) (if bit then r else l);
           collapse d1 bit child (if bit then l else r)
       end
   end).
Proof. destruct rem; reflexivity. Qed.

Lemma collapse_suffix (d d' : Database) (bit : bool) (ch sh h' : Hash) :
  collapse d bit ch sh = Ok (d', h') -> d `suffix_of` d'.
Proof.
  unfold collapse. repeat case_match; try (intros [= <- <-]; reflexivity).
  all: intros Hadd; apply addNode_Ok in Hadd as [_ ->]; apply db_put_suffix.
Qed.

Lemma rmLeaf_refines (key : Hash) (t : tree) (rem depth : nat)
    (d d' : Database) (h h' : Hash) :
  rmLeaf d key rem depth h = Ok (d', h') ->
  collision_free d' ->
  stored d t -> tree_hash t = Ok h ->
  exists t',
    remove_tree key rem depth t = Some t' /\
    stored d' t' /\ tree_hash t' = Ok h' /\ d `suffix_of` d'.
Proof.
  revert rem depth d d' h h'.
  induction t as [|k lh0|l IHl r IHr]; intros rem depth d d' h h' Hrm Hcf Hsto Hh;
    rewrite rmLeaf_unfold in Hrm;
    pose proof (load_stored d _ h Hsto Hh) as Hload; cbn beta iota in Hload.
  - destruct Hload as [-> Hload]. rewrite Hload in Hrm. discriminate.
  - destruct Hload as (-> & Hnz & fl0 & vs0 & hint0 & Hload).
    rewrite Hload in Hrm. cbn in Hrm. cbn [remove_tree].
    case_bool_decide as Hk; [|discriminate]. injection Hrm as <- <-.
    exists TEmpty. split; [reflexivity|]. split; [exact I|].
    split; [reflexivity|reflexivity].
  - destruct Hload as (Hnz & hl & hr & Hload & Hhl & Hhr & Hph).
    rewrite Hload in Hrm. cbn in Hrm. cbn [remove_tree].
    destruct rem as [|rem]; [discriminate|].
    destruct Hsto as (Hsl & Hsr & _).
    destruct (key_bit key depth) eqn:Hbit.
    + destruct (rmLeaf d key rem (S depth) hr)
        as [[d1 child]|e] eqn:Hrec; cbn in Hrm; [|discriminate].
      pose proof (collapse_suffix _ _ _ _ _ _ Hrm) as Hsuf1.
      assert (Hcf1 : collision_free d1) by (eapply collision_free_suffix; eauto).
      destruct (IHr _ _ _ _ _ _ Hrec Hcf1 Hsr Hhr) as (r' & Hrem & Hsr' & Hhr' & Hsuf).
      rewrite Hrem. cbn.
      destruct (collapse_refines d1 d' true r' l child hl h' Hrm Hcf Hsr'
                  (stored_mono _ _ _ Hsuf Hcf1 Hsl) Hhr' Hhl)
        as (Hs' & Hh' & Hsuf').
      eexists. split; [reflexivity|]. split; [exact Hs'|].
      split; [exact Hh'|]. etrans; eauto.
    + destruct (rmLeaf d key rem (S depth) hl)
        as [[d1 child]|e] eqn:Hrec; cbn in Hrm; [|discriminate].
      pose proof (collapse_suffix _ _ _ _ _ _ Hrm) as Hsuf1.
      assert (Hcf1 : collision_free d1) by (eapply collision_free_suffix; eauto).
      destruct (IHl _ _ _ _ _ _ Hrec Hcf1 Hsl Hhl) as (l' & Hrem & Hsl' & Hhl' & Hsuf).
      rewrite Hrem. cbn.
      destruct (collapse_refines d1 d' false l' r child hr h' Hrm Hcf Hsl'
                  (stored_mono _ _ _ Hsuf Hcf1 Hsr) Hhl' Hhr)
        as (Hs' & Hh' & Hsuf').
      eexists. split; [reflexivity|]. split; [exact Hs'|].
      split; [exact Hh'|]. etrans; eauto.
Qed.


(** ** Canonical trees *)

Lemma leaves_tparent_of (bit : bool) (c s : tree) (x : Hash * Hash) :
  x ∈ leaves (tparent_of bit c s) <-> x ∈ leaves c \/ x ∈ leaves s.
Proof. destruct bit; cbn [tparent_of leaves]; rewrite elem_of_app; tauto. Qed.

Lemma length_leaves_tparent_of (bit : bool) (c s : tree) :
  length (leaves (tparent_of bit c s)) =
  (length (leaves c) + length (leaves s))%nat.
Proof. destruct bit; cbn [tparent_of leaves]; rewrite length_app; lia. Qed.

(** A parent above two canonical subtrees whose keys are on the right
    sides. *)
Lemma canonical_tparent_of (depth : nat) (bit : bool) (c s : tree) :
  canonical (S depth) c -> canonical (S depth) s ->
  (forall k lh, (k, lh) ∈ leaves c -> key_bit k depth = bit) ->
  (forall k lh, (k, lh) ∈ leaves s -> key_bit k depth = negb bit) ->
  (2 <= length (leaves c) + length (leaves s))%nat ->
  canonical depth (tparent_of bit c s).
Proof.
  intros Hc Hs Hbc Hbs Hlen.
  destruct bit; cbn [tparent_of canonical negb] in *; rewrite length_app;
    repeat split; auto; lia.
Qed.

Lemma canonical_parent_inv (depth : nat) (bit : bool) (l r : tree) :
  canonical depth (TParent l r) ->
  let c := if bit then r else l in
  let s := if bit then l else r in
  canonical (S depth) c /\ canonical (S depth) s /\
  (forall k lh, (k, lh) ∈ leaves c -> key_bit k depth = bit) /\
  (forall k lh, (k, lh) ∈ leaves s -> key_bit k depth = negb bit) /\
  (2 <= length (leaves c) + length (leaves s))%nat.
Proof.
  cbn [canonical]. rewrite length_app. intros (Hl & Hr & Hbl & Hbr & Hlen).
  destruct bit; cbn; repeat split; auto; lia.
Qed.

Lemma push_tree_spec (key lh oldKey oldHash : Hash) (rem depth : nat) (t' : tree) :
  push_tree key lh oldKey oldHash rem depth = Some t' ->
  canonical depth t' /\
  (forall x, x ∈ leaves t' <-> x = (key, lh) \/ x = (oldKey, oldHash)) /\
  length (leaves t') = 2%nat.
Proof.
  revert depth t'. induction rem as [|rem IH]; intros depth t'; [discriminate|].
  cbn [push_tree]. destruct (Bool.eqb _ _) eqn:Hb.
  - destruct (push_tree key lh oldKey oldHash rem (S depth)) as [child|] eqn:Hrec;
      cbn; [|discriminate].
    intros [= <-]. destruct (IH _ _ Hrec) as (Hc & Hl & Hn).
    apply Bool.eqb_prop in Hb. split; [|split].
    + apply canonical_tparent_of.
      * exact Hc.
      * exact I.
      * intros k lh0 Hin. apply Hl in Hin as [[= -> ->]|[= -> ->]]; auto.
      * intros k lh0 Hin. inversion Hin.
      * cbn [leaves length]. lia.
    + intros x. rewrite leaves_tparent_of, Hl. cbn [leaves].
      rewrite elem_of_nil. tauto.
    + rewrite length_leaves_tparent_of, Hn. reflexivity.
  - intros [= <-]. apply Bool.eqb_false_iff in Hb. split; [|split].
    + apply canonical_tparent_of; cbn [canonical leaves length].
      * exact I.
      * exact I.
      * intros k lh0 Hin. apply list_elem_of_singleton in Hin as [= -> ->]. reflexivity.
      * intros k lh0 Hin. apply list_elem_of_singleton in Hin as [= -> ->].
        destruct (key_bit key depth), (key_bit oldKey depth); cbn; congruence.
      * lia.
    + intros x. rewrite leaves_tparent_of. cbn [leaves].
      rewrite !list_elem_of_singleton. tauto.
    + rewrite length_leaves_tparent_of. reflexivity.
Qed.

Lemma insert_tree_spec (key lh : Hash) (t : tree) (rem depth : nat) (t' : tree) :
  canonical depth t ->
  insert_tree key lh rem depth t = Some t' ->
  canonical depth t' /\
  (forall x, x ∈ leaves t' <-> x = (key, lh) \/ (x ∈ leaves t /\ fst x <> key)) /\
  (length (leaves t) <= length (leaves t'))%nat.
Proof.
  revert rem depth t'.
  induction t as [|k lh0|l IHl r IHr]; intros rem depth t' Hcan; cbn [insert_tree].
  - intros [= <-]. cbn [canonical leaves length]. split; [exact I|]. split; [|lia].
    intros x. rewrite list_elem_of_singleton, elem_of_nil. tauto.
  - case_bool_decide as Hk.
    + intros [= <-]. subst k. cbn [canonical leaves length].
      split; [exact I|]. split; [|lia].
      intros x. rewrite !list_elem_of_singleton. split; [tauto|].
      intros [H|[-> H]]; [exact H|]. now cbn in H.
    + intros Hpush. apply push_tree_spec in Hpush as (Hc & Hl & Hn).
      split; [exact Hc|]. split; [|cbn [leaves length]; lia].
      intros x. rewrite Hl. cbn [leaves]. rewrite list_elem_of_singleton.
      split; [|tauto]. intros [H|H]; [tauto|]. right. subst x. cbn. auto.
  - destruct rem as [|rem]; [discriminate|].
    pose proof (canonical_parent_inv depth (key_bit key depth) l r Hcan) as Hinv.
    cbn zeta in Hinv. destruct Hinv as (Hc & Hs & Hbc & Hbs & Hlen).
    destruct (key_bit key depth) eqn:Hbit.
    + destruct (insert_tree key lh rem (S depth) r) as [r'|] eqn:Hrec; cbn; [|discriminate].
      intros [= <-]. destruct (IHr _ _ _ Hc Hrec) as (Hc' & Hl' & Hn').
      split; [|split].
      * apply (canonical_tparent_of depth true r' l); [exact Hc'|exact Hs| |exact Hbs|lia].
        intros k lh0 Hin. apply Hl' in Hin as [[= -> ->]|[Hin _]]; eauto.
      * intros x. cbn [leaves]. rewrite !elem_of_app, Hl'.
        split; [|tauto]. intros [Hin|Hin]; [|tauto].
        right. split; [tauto|]. destruct x as [k lh0]. cbn. intros ->.
        specialize (Hbs _ _ Hin). cbn in Hbs. congruence.
      * cbn [leaves]. rewrite !length_app. lia.
    + destruct (insert_tree key lh rem (S depth) l) as [l'|] eqn:Hrec; cbn; [|discriminate].
      intros [= <-]. destruct (IHl _ _ _ Hc Hrec) as (Hc' & Hl' & Hn').
      split; [|split].
      * apply (canonical_tparent_of depth false l' r); [exact Hc'|exact Hs| |exact Hbs|lia].
        intros k lh0 Hin. apply Hl' in Hin as [[= -> ->]|[Hin _]]; eauto.
      * intros x. cbn [leaves]. rewrite !elem_of_app, Hl'.
        split; [|tauto]. intros [Hin|Hin]; [tauto|].
        right. split; [tauto|]. destruct x as [k lh0]. cbn. intros ->.
        specialize (Hbs _ _ Hin). cbn in Hbs. congruence.
      * cbn [leaves]. rewrite !length_app. lia.
Qed.

(** A canonical tree with one leaf at most is not a parent. *)
Lemma canonical_small (depth : nat) (t : tree) :
  canonical depth t -> (length (leaves t) <= 1)%nat ->
  match t with TParent _ _ => False | _ => True end.
Proof. destruct t; cbn [canonical leaves]; [auto..|]. intros (_ & _ & _ & _ & H). lia. Qed.

Lemma collapse_tree_spec (depth : nat) (bit : bool) (c s : tree) :
  canonical (S depth) c -> canonical (S depth) s ->
  (forall k lh, (k, lh) ∈ leaves c -> key_bit k depth = bit) ->
  (forall k lh, (k, lh) ∈ leaves s -> key_bit k depth = negb bit) ->
  (1 <= length (leaves c) + length (leaves s))%nat ->
  canonical depth (collapse_tree bit c s) /\
  (forall x, x ∈ leaves (collapse_tree bit c s) <-> x ∈ leaves c \/ x ∈ leaves s) /\
  length (leaves (collapse_tree bit c s)) = (length (leaves c) + length (leaves s))%nat.
Proof.
  intros Hc Hs Hbc Hbs Hlen.
  assert (Hpar : (2 <= length (leaves c) + length (leaves s))%nat ->
                 canonical depth (tparent_of bit c s) /\
                 (forall x, x ∈ leaves (tparent_of bit c s) <-> x ∈ leaves c \/ x ∈ leaves s) /\
                 length (leaves (tparent_of bit c s)) =
                 (length (leaves c) + length (leaves s))%nat).
  { intros H2. split; [now apply canonical_tparent_of|].
    split; [intros x; apply leaves_tparent_of|apply length_leaves_tparent_of]. }
  destruct c as [|ck clh|cl cr], s as [|sk slh|sl sr]; cbn [collapse_tree];
    try (apply Hpar; cbn [canonical leaves length] in *; rewrite ?length_app in *; lia).
  - cbn [canonical leaves length]. split; [exact I|]. split; [|lia].
    intros x. rewrite elem_of_nil. tauto.
  - cbn [canonical leaves length]. split; [exact I|]. split; [|lia].
    intros x. rewrite elem_of_nil. tauto.
Qed.

Lemma remove_tree_spec (key : Hash) (t : tree) (rem depth : nat) (t' : tree) :
  canonical depth t ->
  remove_tree key rem depth t = Some t' ->
  canonical depth t' /\
  (forall x, x ∈ leaves t' <-> x ∈ leaves t /\ fst x <> key) /\
  S (length (leaves t')) = length (leaves t).
Proof.
  revert rem depth t'.
  induction t as [|k lh0|l IHl r IHr]; intros rem depth t' Hcan; cbn [remove_tree].
  - discriminate.
  - case_bool_decide as Hk; [|discriminate]. intros [= <-]. subst k.
    cbn [canonical leaves length]. split; [exact I|]. split; [|lia].
    intros x. rewrite list_elem_of_singleton, elem_of_nil.
    split; [tauto|]. intros [-> H]. now cbn in H.
  - destruct rem as [|rem]; [discriminate|].
    pose proof (canonical_parent_inv depth (key_bit key depth) l r Hcan) as Hinv.
    cbn zeta in Hinv. destruct Hinv as (Hc & Hs & Hbc & Hbs & Hlen).
    destruct (key_bit key depth) eqn:Hbit.
    + destruct (remove_tree key rem (S depth) r) as [r'|] eqn:Hrec; cbn; [|discriminate].
      intros [= <-]. destruct (IHr _ _ _ Hc Hrec) as (Hc' & Hl' & Hn').
      destruct (collapse_tree_spec depth true r' l) as (Hcc & Hcl & Hcn);
        [exact Hc'|exact Hs| |exact Hbs|lia|].
      { intros k lh0 Hin. apply Hl' in Hin as [Hin _]. eauto. }
      split; [exact Hcc|]. split.
      * intros x. rewrite Hcl, Hl'. cbn [leaves]. rewrite elem_of_app.
        split; [|tauto]. intros [H|Hin]; [tauto|]. split; [tauto|].
        destruct x as [k lh0]. cbn. intros ->.
        specialize (Hbs _ _ Hin). cbn in Hbs. congruence.
      * rewrite Hcn. cbn [leaves]. rewrite length_app. lia.
    + destruct (remove_tree key rem (S depth) l) as [l'|] eqn:Hrec; cbn; [|discriminate].
      intros [= <-]. destruct (IHl _ _ _ Hc Hrec) as (Hc' & Hl' & Hn').
      destruct (collapse_tree_spec depth false l' r) as (Hcc & Hcl & Hcn);
        [exact Hc'|exact Hs| |exact Hbs|lia|].
      { intros k lh0 Hin. apply Hl' in Hin as [Hin _]. eauto. }
      split; [exact Hcc|]. split.
      * intros x. rewrite Hcl, Hl'. cbn [leaves]. rewrite elem_of_app.
        split; [|tauto]. intros [H|Hin]; [tauto|]. split; [tauto|].
        destruct x as [k lh0]. cbn. intros ->.
        specialize (Hbs _ _ Hin). cbn in Hbs. congruence.
      * rewrite Hcn. cbn [leaves]. rewrite length_app. lia.
Qed.

Lemma fits_tparent_of (rem : nat) (bit : bool) (c s : tree) :
  fits rem c -> fits rem s -> fits (S rem) (tparent_of bit c s).
Proof. destruct bit; cbn [tparent_of fits]; tauto. Qed.

Lemma fits_push_tree (key lh oldKey oldHash : Hash) (rem depth : nat) (t' : tree) :
  push_tree key lh oldKey oldHash rem depth = Some t' -> fits rem t'.
Proof.
  revert depth t'. induction rem as [|rem IH]; intros depth t'; [discriminate|].
  cbn [push_tree]. destruct (Bool.eqb _ _).
  - destruct (push_tree key lh oldKey oldHash rem (S depth)) as [child|] eqn:Hrec;
      cbn; [|discriminate].
    intros [= <-]. apply fits_tparent_of; [eauto|exact I].
  - intros [= <-]. apply fits_tparent_of; exact I.
Qed.

Lemma fits_insert_tree (key lh : Hash) (t : tree) (rem depth : nat) (t' : tree) :
  fits rem t -> insert_tree key lh rem depth t = Some t' -> fits rem t'.
Proof.
  revert rem depth t'.
  induction t as [|k lh0|l IHl r IHr]; intros rem depth t' Hfit; cbn [insert_tree].
  - intros [= <-]. exact I.
  - case_bool_decide; [intros [= <-]; exact I|apply fits_push_tree].
  - destruct rem as [|rem]; [discriminate|]. destruct Hfit as [Hl Hr].
    destruct (key_bit key depth).
    + destruct (insert_tree key lh rem (S depth) r) as [r'|] eqn:Hrec; cbn; [|discriminate].
      intros [= <-]. cbn [fits]. eauto.
    + destruct (insert_tree key lh rem (S depth) l) as [l'|] eqn:Hrec; cbn; [|discriminate].
      intros [= <-]. cbn [fits]. eauto.
Qed.

Lemma fits_collapse_tree (rem : nat) (bit : bool) (c s : tree) :
  fits rem c -> fits rem s -> fits (S rem) (collapse_tree bit c s).
Proof.
  intros Hc Hs. destruct c, s; cbn [collapse_tree]; try exact I;
    apply fits_tparent_of; assumption.
Qed.

Lemma fits_remove_tree (key : Hash) (t : tree) (rem depth : nat) (t' : tree) :
  fits rem t -> remove_tree key rem depth t = Some t' -> fits rem t'.
Proof.
  revert rem depth t'.
  induction t as [|k lh0|l IHl r IHr]; intros rem depth t' Hfit; cbn [remove_tree].
  - discriminate.
  - case_bool_decide; [intros [= <-]; exact I|discriminate].
  - destruct rem as [|rem]; [discriminate|]. destruct Hfit as [Hl Hr].
    destruct (key_bit key depth).
    + destruct (remove_tree key rem (S depth) r) as [r'|] eqn:Hrec; cbn; [|discriminate].
      intros [= <-]. apply fits_collapse_tree; eauto.
    + destruct (remove_tree key rem (S depth) l) as [l'|] eqn:Hrec; cbn; [|discriminate].
      intros [= <-]. apply fits_collapse_tree; eauto.
Qed.

(** The leaves of a canonical tree have different keys. *)
Lemma canonical_same_key (depth : nat) (t : tree) (k : Hash) :
  canonical depth t -> (forall x, x ∈ leaves t -> fst x = k) ->
  (length (leaves t) <= 1)%nat.
Proof.
  revert depth. induction t as [|k0 lh0|l IHl r IHr]; intros depth Hcan Hall;
    cbn [leaves length]; [lia..|].
  destruct Hcan as (Hl & Hr & Hbl & Hbr & Hlen). cbn [leaves] in Hall.
  assert (Hnl : (length (leaves l) <= 1)%nat).
  { eapply IHl; eauto. intros x Hx. apply Hall, elem_of_app. auto. }
  assert (Hnr : (length (leaves r) <= 1)%nat).
  { eapply IHr; eauto. intros x Hx. apply Hall, elem_of_app. auto. }
  rewrite length_app in *.
  destruct (leaves l) as [|[k1 h1] ?] eqn:El; [cbn in *; lia|].
  destruct (leaves r) as [|[k2 h2] ?] eqn:Er; [cbn in *; lia|].
  assert (H1 : key_bit k1 depth = false) by (eapply Hbl; left).
  assert (H2 : key_bit k2 depth = true) by (eapply Hbr; left).
  assert (k1 = k) by (apply (Hall (k1, h1)), elem_of_app; left; left).
  assert (k2 = k) by (apply (Hall (k2, h2)), elem_of_app; right; left).
  congruence.
Qed.

(** A canonical tree is determined by its leaves. *)
Lemma canonical_unique (depth : nat) (t1 t2 : tree) :
  canonical depth t1 -> canonical depth t2 ->
  (forall x, x ∈ leaves t1 <-> x ∈ leaves t2) ->
  t1 = t2.
Proof.
  revert depth t2.
  assert (Hne : forall depth l r, canonical depth (TParent l r) ->
                  exists x, x ∈ leaves (TParent l r)).
  { intros depth l r (_ & _ & _ & _ & Hlen). cbn [leaves].
    destruct (leaves l ++ leaves r) as [|x ?]; [cbn in Hlen; lia|].
    exists x. left. }
  assert (Hleaf : forall depth k lh l r, canonical depth (TParent l r) ->
                    (forall x, x ∈ leaves (TParent l r) <-> x ∈ [(k, lh)]) -> False).
  { intros depth k lh l r Hcan Heq.
    pose proof (canonical_same_key depth (TParent l r) k Hcan) as Hsk.
    destruct Hcan as (_ & _ & _ & _ & Hlen). cbn [leaves] in *.
    assert ((length (leaves l ++ leaves r) <= 1)%nat); [|lia].
    apply Hsk. intros x Hx. apply Heq, list_elem_of_singleton in Hx. now subst. }
  induction t1 as [|k lh|l1 IHl r1 IHr]; intros depth t2 Hc1 Hc2 Heq.
  - destruct t2 as [|k2 lh2|l2 r2]; [reflexivity|..].
    + exfalso. eapply elem_of_nil, Heq. left.
    + destruct (Hne _ _ _ Hc2) as [x Hx]. apply Heq in Hx. inversion Hx.
  - destruct t2 as [|k2 lh2|l2 r2].
    + exfalso. eapply elem_of_nil, Heq. left.
    + assert (Hin : (k, lh) ∈ leaves (TLeaf k2 lh2)) by (apply Heq; left).
      apply list_elem_of_singleton in Hin as [= -> ->]. reflexivity.
    + exfalso. eapply Hleaf; [exact Hc2|]. intros x. symmetry. apply Heq.
  - destruct t2 as [|k2 lh2|l2 r2].
    + destruct (Hne _ _ _ Hc1) as [x Hx]. apply Heq in Hx. inversion Hx.
    + exfalso. eapply Hleaf; [exact Hc1|]. exact Heq.
    + destruct Hc1 as (Hl1 & Hr1 & Hbl1 & Hbr1 & _).
      destruct Hc2 as (Hl2 & Hr2 & Hbl2 & Hbr2 & _).
      cbn [leaves] in Heq. f_equal.
      * eapply IHl; eauto. intros [k lh]. split; intros Hin.
        -- assert (Hin' : (k, lh) ∈ leaves l2 ++ leaves r2)
             by (apply Heq, elem_of_app; auto).
           apply elem_of_app in Hin' as [?|Hin']; [assumption|].
           specialize (Hbl1 _ _ Hin). specialize (Hbr2 _ _ Hin'). congruence.
        -- assert (Hin' : (k, lh) ∈ leaves l1 ++ leaves r1)
             by (apply Heq, elem_of_app; auto).
           apply elem_of_app in Hin' as [?|Hin']; [assumption|].
           specialize (Hbl2 _ _ Hin). specialize (Hbr1 _ _ Hin'). congruence.
      * eapply IHr; eauto. intros [k lh]. split; intros Hin.
        -- assert (Hin' : (k, lh) ∈ leaves l2 ++ leaves r2)
             by (apply Heq, elem_of_app; auto).
           apply elem_of_app in Hin' as [Hin'|?]; [|assumption].
           specialize (Hbr1 _ _ Hin). specialize (Hbl2 _ _ Hin'). congruence.
        -- assert (Hin' : (k, lh) ∈ leaves l1 ++ leaves r1)
             by (apply Heq, elem_of_app; auto).
           apply elem_of_app in Hin' as [Hin'|?]; [|assumption].
           specialize (Hbr2 _ _ Hin). specialize (Hbl1 _ _ Hin'). congruence.
Qed.


(** ** Operations keep the canonical tree of the live pairs *)

Lemma pushLeaf_suffix (newLeaf : Node) (lh key oldHash oldKey : Hash)
    (rem depth : nat) (d d' : Database) (h' : Hash) :
  pushLeaf d newLeaf lh key oldHash oldKey rem depth = Ok (d', h') ->
  d `suffix_of` d'.
Proof.
  revert depth d' h'. induction rem as [|rem IH]; intros depth d' h'; [discriminate|].
  cbn [pushLeaf]. destruct (Bool.eqb _ _).
  - destruct (pushLeaf d newLeaf lh key oldHash oldKey rem (S depth))
      as [[d1 child]|e] eqn:Hrec; cbn; [|discriminate].
    intros Hadd. apply addNode_Ok in Hadd as [_ ->].
    etrans; [eapply IH; eauto|apply db_put_suffix].
  - intros Hadd. apply addNode_Ok in Hadd as [_ ->].
    etrans; apply db_put_suffix.
Qed.

Lemma addLeaf_suffix (newLeaf : Node) (lh key : Hash) (rem depth : nat)
    (d d' : Database) (h h' : Hash) :
  addLeaf d newLeaf lh key rem depth h = Ok (d', h') -> d `suffix_of` d'.
Proof.
  revert depth d' h h'. induction rem as [|rem IH]; intros depth d' h h' Hadd;
    rewrite addLeaf_unfold in Hadd;
    destruct (load d h) as [[|l r|k fl vs hint]|e];
    cbn [mbind result_bind] in Hadd;
    try discriminate;
    try (injection Hadd as <- <-; apply db_put_suffix);
    try (destruct (bool_decide (k = key));
         [destruct (bool_decide (lh = h)); injection Hadd as <- <-;
          first [reflexivity|apply db_put_suffix]
         |eapply pushLeaf_suffix; exact Hadd]).
  cbv zeta in Hadd.
  destruct (addLeaf d newLeaf lh key rem (S depth) _) as [[d1 child]|e] eqn:Hrec;
    cbn [mbind result_bind] in Hadd; [|discriminate].
  apply addNode_Ok in Hadd as [_ ->].
  etrans; [eapply IH; eauto|apply db_put_suffix].
Qed.

Lemma rmLeaf_suffix (key : Hash) (rem depth : nat) (d d' : Database) (h h' : Hash) :
  rmLeaf d key rem depth h = Ok (d', h') -> d `suffix_of` d'.
Proof.
  revert depth d' h h'. induction rem as [|rem IH]; intros depth d' h h' Hrm;
    rewrite rmLeaf_unfold in Hrm;
    destruct (load d h) as [[|l r|k fl vs hint]|e]; cbn in Hrm;
    try discriminate;
    try (case_bool_decide; [injection Hrm as <- <-; reflexivity|discriminate]).
  destruct (rmLeaf d key rem (S depth) _) as [[d1 child]|e] eqn:Hrec;
    cbn in Hrm; [|discriminate].
  etrans; [eapply IH; eauto|eapply collapse_suffix; eauto].
Qed.

Lemma TryUpdate_inv (mt mt' : ZkTrieImpl) (key : Hash) (flags : Z)
    (vs : list Byte32) (e : option error) :
  TryUpdate mt key flags vs = (mt', e) ->
  (e <> None /\ mt' = mt) \/
  (e = None /\
   exists lh d root,
     NodeHash (NodeLeaf key flags vs None) = Ok lh /\
     addLeaf (db mt) (NodeLeaf key flags vs None) lh key (maxLevels mt) 0
       (rootHash mt) = Ok (d, root) /\
     mt' = mkZkTrieImpl d root (maxLevels mt)).
Proof.
  unfold TryUpdate. destruct (negb _); [intros [= <- <-]; left; split; congruence|].
  destruct (NodeHash _) as [lh|e0] eqn:Hh; [|intros [= <- <-]; left; split; congruence].
  destruct (addLeaf _ _ _ _ _ _ _) as [[d root]|e0] eqn:Hadd;
    [|intros [= <- <-]; left; split; congruence].
  intros [= <- <-]. right. split; [reflexivity|]. eauto 10.
Qed.

Lemma TryDelete_inv (mt mt' : ZkTrieImpl) (key : Hash) (e : option error) :
  TryDelete mt key = (mt', e) ->
  (e <> None /\ mt' = mt) \/
  (e = None /\
   exists d root,
     rmLeaf (db mt) key (maxLevels mt) 0 (rootHash mt) = Ok (d, root) /\
     mt' = mkZkTrieImpl d root (maxLevels mt)).
Proof.
  unfold TryDelete.
  destruct (rmLeaf _ _ _ _ _) as [[d root]|e0] eqn:Hrm;
    [|intros [= <- <-]; left; split; congruence].
  intros [= <- <-]. right. split; [reflexivity|]. eauto.
Qed.

Lemma step_suffix (mt : ZkTrieImpl) (o : op) :
  db mt `suffix_of` db (fst (step mt o)) /\
  maxLevels (fst (step mt o)) = maxLevels mt.
Proof.
  destruct (step mt o) as [mt' e] eqn:Hstep. cbn [fst].
  destruct o as [key flags vs|key]; cbn [step] in Hstep.
  - apply TryUpdate_inv in Hstep as [[_ ->]|(_ & lh & d & root & _ & Hadd & ->)];
      [split; reflexivity|].
    split; [|reflexivity]. eapply addLeaf_suffix; eauto.
  - apply TryDelete_inv in Hstep as [[_ ->]|(_ & d & root & Hrm & ->)];
      [split; reflexivity|].
    split; [|reflexivity]. eapply rmLeaf_suffix; eauto.
Qed.

Lemma run_suffix (ops : list op) (mt : ZkTrieImpl) :
  db mt `suffix_of` db (run mt ops) /\ maxLevels (run mt ops) = maxLevels mt.
Proof.
  revert mt. induction ops as [|o ops IH]; intros mt; cbn [run];
    [split; reflexivity|].
  destruct (step_suffix mt o) as [Hs Hm]. destruct (IH (fst (step mt o))) as [Hs' Hm'].
  split; [etrans; eauto|congruence].
Qed.

Lemma live_hash_insert (m : gmap Hash (Z * list Byte32)) (key : Hash)
    (flags : Z) (vs : list Byte32) (lh : Hash) (k : Hash) :
  NodeHash (NodeLeaf key flags vs None) = Ok lh ->
  live_hash (<[key := (flags, vs)]> m) k =
  if bool_decide (k = key) then Some lh else live_hash m k.
Proof.
  intros Hh. unfold live_hash. case_bool_decide as Hk.
  - subst k. rewrite lookup_insert_eq. now rewrite Hh.
  - now rewrite lookup_insert_ne by congruence.
Qed.

Lemma live_hash_delete (m : gmap Hash (Z * list Byte32)) (key k : Hash) :
  live_hash (delete key m) k =
  if bool_decide (k = key) then None else live_hash m k.
Proof.
  unfold live_hash. case_bool_decide as Hk.
  - subst k. now rewrite lookup_delete_eq.
  - now rewrite lookup_delete_ne by congruence.
Qed.

Lemma represents_empty (n : nat) (d : Database) :
  represents ∅ (mkZkTrieImpl d HashZero n).
Proof.
  exists TEmpty. cbn. repeat split; try exact I.
  - intros Hin. inversion Hin.
  - unfold live_hash. rewrite lookup_empty. discriminate.
  - intros k. rewrite lookup_empty. intros [x Hx]. discriminate.
Qed.

(** One operation: when it succeeds the trie holds the canonical tree of
    the updated live pairs, and when it fails nothing changes. *)
Lemma step_represents (m : gmap Hash (Z * list Byte32)) (mt : ZkTrieImpl) (o : op) :
  represents m mt ->
  collision_free (db (fst (step mt o))) ->
  represents (match snd (step mt o) with
              | None => apply_op o m
              | Some _ => m
              end) (fst (step mt o)).
Proof.
  intros (t & Hcan & Hfit & Hsto & Hhash & Hleaves & Hlive) Hcf.
  destruct (step mt o) as [mt' e] eqn:Hstep. cbn [fst snd] in *.
  destruct o as [key flags vs|key]; cbn [step apply_op] in *.
  - apply TryUpdate_inv in Hstep as [[He ->]|(-> & lh & d & root & Hlh & Hadd & ->)].
    { destruct e; [|congruence]. exists t. auto 10. }
    cbn [db] in Hcf.
    destruct (addLeaf_refines _ lh key t _ _ _ _ _ _ Hadd Hcf) as (t' & Hins & Hsto' & Hh' & _);
      [eauto|exact Hsto|exact Hhash|].
    destruct (insert_tree_spec _ _ _ _ _ _ Hcan Hins) as (Hcan' & Hl' & _).
    pose proof (fits_insert_tree _ _ _ _ _ _ Hfit Hins) as Hfit'.
    exists t'. cbn [db rootHash maxLevels]. repeat split; try assumption.
    + intros Hin. rewrite (live_hash_insert _ _ _ _ lh) by exact Hlh.
      apply Hl' in Hin as [[= -> ->]|[Hin Hne]]; cbn in *.
      * now rewrite bool_decide_eq_true_2.
      * rewrite bool_decide_eq_false_2 by exact Hne. now apply Hleaves.
    + rewrite (live_hash_insert _ _ _ _ lh) by exact Hlh. intros Hl.
      apply Hl'. case_bool_decide as Hk.
      * left. congruence.
      * right. split; [now apply Hleaves|exact Hk].
    + intros k. rewrite (live_hash_insert _ _ _ _ lh) by exact Hlh.
      case_bool_decide as Hk; [eauto|].
      rewrite lookup_insert_ne by congruence. apply Hlive.
  - apply TryDelete_inv in Hstep as [[He ->]|(-> & d & root & Hrm & ->)].
    { destruct e; [|congruence]. exists t. auto 10. }
    cbn [db] in Hcf.
    destruct (rmLeaf_refines key t _ _ _ _ _ _ Hrm Hcf Hsto Hhash)
      as (t' & Hrem & Hsto' & Hh' & _).
    destruct (remove_tree_spec _ _ _ _ _ Hcan Hrem) as (Hcan' & Hl' & _).
    pose proof (fits_remove_tree _ _ _ _ _ Hfit Hrem) as Hfit'.
    exists t'. cbn [db rootHash maxLevels]. repeat split; try assumption.
    + intros Hin. rewrite live_hash_delete.
      apply Hl' in Hin as [Hin Hne]. cbn in Hne.
      rewrite bool_decide_eq_false_2 by exact Hne. now apply Hleaves.
    + rewrite live_hash_delete. intros Hl. apply Hl'.
      case_bool_decide as Hk; [discriminate|].
      split; [now apply Hleaves|exact Hk].
    + intros k. rewrite live_hash_delete.
      case_bool_decide as Hk; [subst k; rewrite lookup_delete_eq; intros [x Hx]; discriminate|].
      rewrite lookup_delete_ne by congruence. apply Hlive.
Qed.

Lemma run_represents (ops : list op) (m : gmap Hash (Z * list Byte32))
    (mt : ZkTrieImpl) :
  represents m mt ->
  collision_free (db (run mt ops)) ->
  represents (live mt ops m) (run mt ops).
Proof.
  revert m mt. induction ops as [|o ops IH]; intros m mt Hrep Hcf; cbn [run live] in *;
    [exact Hrep|].
  apply IH; [|exact Hcf]. apply step_represents; [exact Hrep|].
  eapply collision_free_suffix; [|exact Hcf]. apply run_suffix.
Qed.

(** Two tries that hold the canonical tree of the same live pairs have the
    same root hash. *)
Lemma represents_root (m : gmap Hash (Z * list Byte32)) (mt1 mt2 : ZkTrieImpl) :
  represents m mt1 -> represents m mt2 -> rootHash mt1 = rootHash mt2.
Proof.
  intros (t1 & Hc1 & _ & _ & Hh1 & Hl1 & _) (t2 & Hc2 & _ & _ & Hh2 & Hl2 & _).
  assert (t1 = t2) as ->.
  { eapply canonical_unique; eauto. intros [k lh]. now rewrite Hl1, Hl2. }
  congruence.
Qed.

(** The root hash after a trace from the empty trie is a function of the
    live pairs the trace leaves. *)
Lemma root_of_live (n1 n2 : nat) (ops1 ops2 : list op) :
  let mt1 := run (mkZkTrieImpl [] HashZero n1) ops1 in
  let mt2 := run (mkZkTrieImpl [] HashZero n2) ops2 in
  collision_free (db mt1) -> collision_free (db mt2) ->
  live (mkZkTrieImpl [] HashZero n1) ops1 ∅ =
  live (mkZkTrieImpl [] HashZero n2) ops2 ∅ ->
  rootHash mt1 = rootHash mt2.
Proof.
  intros mt1 mt2 Hcf1 Hcf2 Hlive.
  eapply represents_root.
  - apply run_represents; [apply represents_empty|exact Hcf1].
  - rewrite Hlive. apply run_represents; [apply represents_empty|exact Hcf2].
Qed.

(** ** Lookup *)

Lemma walk_unfold (d : Database) (key : Hash) (rem depth : nat) (h : Hash) :
  walk d key rem depth h =
  (n ← load d h;
   match n with
   | NodeParent l r =>
       match rem with
       | O => Err ErrReachedMaxLevel
       | S rem' => walk d key rem' (S depth) (if key_bit key depth then r else l)
       end
   | _ => Ok n
   end).
Proof. destruct rem; reflexivity. Qed.

(** The walk for a key on a stored canonical tree ends at the leaf of the
    key when the tree has one, and otherwise at the empty node or at the
    leaf of another key. *)
Lemma walk_stored (key : Hash) (t : tree) (rem depth : nat) (d : Database) (h : Hash) :
  stored d t -> tree_hash t = Ok h -> canonical depth t -> fits rem t ->
  exists n, walk d key rem depth h = Ok n /\
    match n with
    | NodeEmpty => forall lh, (key, lh) ∉ leaves t
    | NodeLeaf k _ _ _ => k = key <-> exists lh, (key, lh) ∈ leaves t
    | NodeParent _ _ => False
    end.
Proof.
  revert rem depth h.
  induction t as [|k lh0|l IHl r IHr]; intros rem depth h Hsto Hh Hcan Hfit;
    rewrite walk_unfold;
    pose proof (load_stored d _ h Hsto Hh) as Hload; cbn beta iota in Hload.
  - destruct Hload as [_ ->]. exists NodeEmpty. split; [reflexivity|].
    intros lh Hin. inversion Hin.
  - destruct Hload as (_ & _ & fl & vs & hint & ->).
    exists (NodeLeaf k fl vs hint). split; [reflexivity|]. cbn [leaves]. split.
    + intros ->. exists lh0. left.
    + intros [lh Hin]. now apply list_elem_of_singleton in Hin as [= <- _].
  - destruct Hload as (_ & hl & hr & -> & Hhl & Hhr & _). cbn [mbind result_bind].
    destruct rem as [|rem]; [destruct Hfit|]. destruct Hfit as [Hfl Hfr].
    destruct Hsto as (Hsl & Hsr & _).
    destruct Hcan as (Hcl & Hcr & Hbl & Hbr & _). cbn [leaves].
    destruct (key_bit key depth) eqn:Hbit.
    + destruct (IHr rem (S depth) hr Hsr Hhr Hcr Hfr) as (n & -> & Hn).
      exists n. split; [reflexivity|]. destruct n as [|? ?|k fl vs hint]; [|exact Hn|].
      * intros lh Hin. apply elem_of_app in Hin as [Hin|Hin]; [|now apply (Hn lh)].
        specialize (Hbl _ _ Hin). congruence.
      * rewrite Hn. split; intros [lh Hin]; exists lh.
        -- apply elem_of_app. now right.
        -- apply elem_of_app in Hin as [Hin|Hin]; [|exact Hin].
           specialize (Hbl _ _ Hin). congruence.
    + destruct (IHl rem (S depth) hl Hsl Hhl Hcl Hfl) as (n & -> & Hn).
      exists n. split; [reflexivity|]. destruct n as [|? ?|k fl vs hint]; [|exact Hn|].
      * intros lh Hin. apply elem_of_app in Hin as [Hin|Hin]; [now apply (Hn lh)|].
        specialize (Hbr _ _ Hin). congruence.
      * rewrite Hn. split; intros [lh Hin]; exists lh.
        -- apply elem_of_app. now left.
        -- apply elem_of_app in Hin as [Hin|Hin]; [exact Hin|].
           specialize (Hbr _ _ Hin). congruence.
Qed.

(** [TryGet] yields a value exactly for the live keys. *)
Lemma TryGet_represents (m : gmap Hash (Z * list Byte32)) (mt : ZkTrieImpl) (key : Hash) :
  represents m mt ->
  (is_Some (fst (TryGet mt key)) <-> is_Some (m !! key)).
Proof.
  intros (t & Hcan & Hfit & Hsto & Hhash & Hleaves & Hlive).
  destruct (walk_stored key t _ 0 _ _ Hsto Hhash Hcan Hfit) as (n & Hwalk & Hn).
  assert (Hin : (exists lh, (key, lh) ∈ leaves t) <-> is_Some (m !! key)).
  { split.
    - intros [lh Hl]. apply Hleaves in Hl. unfold live_hash in Hl.
      destruct (m !! key); [eauto|discriminate].
    - intros Hs. destruct (Hlive _ Hs) as [lh Hl]. exists lh. now apply Hleaves. }
  rewrite <- Hin. unfold TryGet, GetLeafNode. rewrite Hwalk. cbn [mbind result_bind].
  destruct n as [|? ?|k fl vs hint]; cbn [fst].
  - split; [intros [x Hx]; discriminate|]. intros [lh Hl]. now apply Hn in Hl.
  - destruct Hn.
  - case_bool_decide as Hk; cbn [fst].
    + split; [intros _; now apply Hn|eauto].
    + split; [intros [x Hx]; discriminate|]. intros Hl. now apply Hn in Hl.
Qed.

End ZkTrieProperties.

(** ** The wrapper of the test file *)

Section WrapperInterface.

Context {T : Type} {methods : ZkTrieMethods T}.

(** C6. Whatever the embedded trie is: [AddWord] returns
    [ErrEntryIndexAlreadyExists] and leaves the trie as it is when [TryGet]
    on the key preimage yields a value, and is [TryUpdate] on the hash of
    the key, with flags [1] and the value as the only word, when it yields
    none. *)
Theorem AddWord_insert_only (mt : T) (kPreimage vPreimage : Byte32) :
  (forall val,
     fst (wrapper_TryGet mt (vec_to_list kPreimage)) = Some val ->
     AddWord mt kPreimage vPreimage = (mt, Some ErrEntryIndexAlreadyExists)) /\
  (fst (wrapper_TryGet mt (vec_to_list kPreimage)) = None ->
   AddWord mt kPreimage vPreimage =
   impl_TryUpdate mt (NewHashFromBytes (vec_to_list kPreimage)) 1 [vPreimage]).
Proof.
  unfold AddWord. split.
  - intros val ->. reflexivity.
  - intros ->. reflexivity.
Qed.

(** [UpdateWord] is the second branch of [AddWord] without the lookup. *)
Lemma AddWord_absent_UpdateWord (mt : T) (kPreimage vPreimage : Byte32) :
  fst (wrapper_TryGet mt (vec_to_list kPreimage)) = None ->
  AddWord mt kPreimage vPreimage = UpdateWord mt kPreimage vPreimage.
Proof. unfold AddWord, UpdateWord. now intros ->. Qed.

End WrapperInterface.

Lemma NewHashFromBytes_word_inj (k1 k2 : Byte32) :
  NewHashFromBytes (vec_to_list k1) = NewHashFromBytes (vec_to_list k2) -> k1 = k2.
Proof.
  intros H. apply (f_equal vec_to_list) in H.
  unfold NewHashFromBytes, ReverseByteOrder in H.
  rewrite !vec_to_list_copy, !copy_slice_full in H
    by (now rewrite length_rev, !length_vec_to_list).
  apply vec_to_list_inj2. apply (f_equal (@rev byte)) in H.
  now rewrite !rev_involutive in H.
Qed.

Section WrapperProperties.

Context {hasher : NodeHasher}.

Lemma AddWord_ok (mt mt' : ZkTrieImpl) (k v : Byte32) :
  AddWord mt k v = (mt', None) ->
  step mt (add_op (k, v)) = (mt', None).
Proof.
  unfold AddWord, add_op. cbn [step fst snd].
  destruct (fst (wrapper_TryGet mt (vec_to_list k))); [discriminate|auto].
Qed.

Lemma run_app (ops1 ops2 : list op) (mt : ZkTrieImpl) :
  run mt (ops1 ++ ops2) = run (run mt ops1) ops2.
Proof. revert mt. induction ops1 as [|o ops1 IH]; intros mt; cbn [run app]; auto. Qed.

Lemma errors_app (ops1 ops2 : list op) (mt : ZkTrieImpl) :
  errors mt (ops1 ++ ops2) = errors mt ops1 ++ errors (run mt ops1) ops2.
Proof.
  revert mt. induction ops1 as [|o ops1 IH]; intros mt; cbn [errors run app]; [reflexivity|].
  now rewrite IH.
Qed.

(** When every operation of a trace succeeds, the live pairs are those of
    the operations applied in turn. *)
Lemma live_all_ok (ops : list op) (mt : ZkTrieImpl) (m : gmap Hash (Z * list Byte32)) :
  all_ok (errors mt ops) ->
  live mt ops m = foldl (fun m0 o => apply_op o m0) m ops.
Proof.
  revert mt m. induction ops as [|o ops IH]; intros mt m Hok; cbn [live foldl errors] in *;
    [reflexivity|].
  apply Forall_cons in Hok as [-> Hok]. now apply IH.
Qed.

Lemma AddWords_run (kvs : list (Byte32 * Byte32)) (mt : ZkTrieImpl) :
  all_ok (snd (AddWords mt kvs)) ->
  fst (AddWords mt kvs) = run mt (map add_op kvs) /\
  all_ok (errors mt (map add_op kvs)).
Proof.
  revert mt. induction kvs as [|[k v] kvs IH]; intros mt; cbn [AddWords map run errors fst snd].
  - intros _. split; [reflexivity|constructor].
  - destruct (AddWord mt k v) as [mt1 e] eqn:Hadd.
    destruct (AddWords mt1 kvs) as [mt2 es] eqn:Hrest. cbn [fst snd].
    intros Hok. apply Forall_cons in Hok as [-> Hok].
    apply AddWord_ok in Hadd. rewrite Hadd. cbn [fst snd].
    specialize (IH mt1). rewrite Hrest in IH. destruct (IH Hok) as [Hrun Herr].
    split; [exact Hrun|]. constructor; [reflexivity|exact Herr].
Qed.

Lemma DeleteWords_run (ks : list Byte32) (mt : ZkTrieImpl) :
  DeleteWords mt ks = (run mt (map delete_op ks), errors mt (map delete_op ks)).
Proof.
  revert mt. induction ks as [|k ks IH]; intros mt; cbn [DeleteWords map run errors];
    [reflexivity|].
  change (DeleteWord mt k) with (step mt (delete_op k)).
  destruct (step mt (delete_op k)) as [mt1 e]. cbn [fst snd].
  rewrite IH. reflexivity.
Qed.

(** The live pairs after inserting pairs of different keys. *)
Lemma lookup_adds (kvs : list (Byte32 * Byte32)) (h : Hash) (x : Z * list Byte32) :
  NoDup (map fst kvs) ->
  foldl (fun m0 o => apply_op o m0) ∅ (map add_op kvs) !! h = Some x <->
  exists k v, (k, v) ∈ kvs /\ NewHashFromBytes (vec_to_list k) = h /\ x = (1, [v]).
Proof.
  induction kvs as [|[k0 v0] kvs IH] using rev_ind.
  - cbn. rewrite lookup_empty. split; [discriminate|].
    intros (k & v & Hin & _). inversion Hin.
  - rewrite !map_app, foldl_app. cbn [map foldl add_op apply_op fst snd].
    intros Hnd. apply NoDup_app in Hnd as (Hnd & Hnot & _).
    destruct (decide (NewHashFromBytes (vec_to_list k0) = h)) as [<-|Hne].
    + rewrite lookup_insert_eq. split.
      * intros [= <-]. exists k0, v0. rewrite elem_of_app, list_elem_of_singleton. auto.
      * intros (k & v & Hin & Hk & ->). apply NewHashFromBytes_word_inj in Hk. subst k.
        apply elem_of_app in Hin as [Hin|Hin].
        -- exfalso. apply (Hnot k0); [|left].
           apply list_elem_of_In, in_map_iff. exists (k0, v). split; [reflexivity|].
           now apply list_elem_of_In.
        -- apply list_elem_of_singleton in Hin as [= ->]. reflexivity.
    + rewrite lookup_insert_ne by exact Hne. rewrite IH by exact Hnd.
      split; intros (k & v & Hin & Hk & ->); exists k, v.
      * rewrite elem_of_app. auto.
      * apply elem_of_app in Hin as [Hin|Hin]; [auto|].
        apply list_elem_of_singleton in Hin as [= -> ->]. congruence.
Qed.

Lemma lookup_deletes (ks : list Byte32) (m : gmap Hash (Z * list Byte32)) (h : Hash) :
  foldl (fun m0 o => apply_op o m0) m (map delete_op ks) !! h =
  if bool_decide (h ∈ map (fun k => NewHashFromBytes (vec_to_list k)) ks)
  then None else m !! h.
Proof.
  revert m. induction ks as [|k ks IH]; intros m; cbn [map foldl delete_op apply_op].
  - rewrite bool_decide_eq_false_2; [reflexivity|]. intros Hin. inversion Hin.
  - rewrite IH. destruct (decide (h = NewHashFromBytes (vec_to_list k))) as [->|Hne].
    + rewrite (bool_decide_eq_true_2 (_ ∈ _ :: _)) by left.
      case_bool_decide; [reflexivity|apply lookup_delete_eq].
    + rewrite lookup_delete_ne by congruence.
      apply (f_equal (fun b : bool => if b then None else m !! h)).
      apply bool_decide_ext. rewrite elem_of_cons. tauto.
Qed.

End WrapperProperties.

Section OrderIndependence.

Context {hasher : NodeHasher}.

Lemma adds_permutation (kvs1 kvs2 : list (Byte32 * Byte32)) :
  NoDup (map fst kvs1) -> Permutation kvs1 kvs2 ->
  foldl (fun m0 o => apply_op o m0) ∅ (map add_op kvs1) =
  foldl (fun m0 o => apply_op o m0) ∅ (map add_op kvs2).
Proof.
  intros Hnd Hperm.
  assert (Hnd2 : NoDup (map fst kvs2)).
  { assert (Hp : Permutation (map fst kvs1) (map fst kvs2))
      by now apply Permutation_map.
    now rewrite <- Hp. }
  apply map_eq. intros h. apply option_eq. intros x.
  rewrite !lookup_adds by assumption.
  split; intros (k & v & Hin & Hk & Hx); exists k, v; repeat split; try assumption.
  - now rewrite <- Hperm.
  - now rewrite Hperm.
Qed.

Lemma AddWords_live (kvs : list (Byte32 * Byte32)) (mt : ZkTrieImpl) :
  all_ok (snd (AddWords mt kvs)) ->
  fst (AddWords mt kvs) = run mt (map add_op kvs) /\
  live mt (map add_op kvs) ∅ = foldl (fun m0 o => apply_op o m0) ∅ (map add_op kvs).
Proof.
  intros Hok. destruct (AddWords_run kvs mt Hok) as [Hrun Herr].
  split; [exact Hrun|]. now apply live_all_ok.
Qed.

(** On a trie that holds the live pairs [m], [AddWord] refuses the live
    keys and updates for the others. *)
Lemma AddWord_represents (m : gmap Hash (Z * list Byte32)) (mt : ZkTrieImpl)
    (k v : Byte32) :
  represents m mt ->
  AddWord mt k v =
  if bool_decide (is_Some (m !! NewHashFromBytes (vec_to_list k)))
  then (mt, Some ErrEntryIndexAlreadyExists)
  else TryUpdate mt (NewHashFromBytes (vec_to_list k)) 1 [v].
Proof.
  intros Hrep. unfold AddWord, wrapper_TryGet. cbn [impl_TryGet impl_TryUpdate ZkTrieImpl_methods].
  pose proof (TryGet_represents m mt (NewHashFromBytes (vec_to_list k)) Hrep) as Hget.
  case_bool_decide as Hlive.
  - apply Hget in Hlive as [x ->]. reflexivity.
  - destruct (fst (TryGet mt _)) as [x|]; [|reflexivity].
    exfalso. apply Hlive, Hget. eauto.
Qed.

(** When every [AddWord] of a list succeeds, its keys are different. *)
Lemma AddWords_NoDup (kvs : list (Byte32 * Byte32)) (m : gmap Hash (Z * list Byte32))
    (mt : ZkTrieImpl) :
  represents m mt ->
  all_ok (snd (AddWords mt kvs)) ->
  collision_free (db (fst (AddWords mt kvs))) ->
  NoDup (map fst kvs) /\
  forall k, k ∈ map fst kvs -> m !! NewHashFromBytes (vec_to_list k) = None.
Proof.
  revert m mt. induction kvs as [|[k v] kvs IH]; intros m mt Hrep Hok Hcf.
  - split; [constructor|]. intros k Hin. inversion Hin.
  - cbn [AddWords fst snd] in *.
    destruct (AddWord mt k v) as [mt1 e] eqn:Hadd.
    destruct (AddWords mt1 kvs) as [mt2 es] eqn:Hrest. cbn [fst snd] in *.
    apply Forall_cons in Hok as [-> Hok].
    assert (Hrest2 : mt2 = fst (AddWords mt1 kvs)) by now rewrite Hrest.
    assert (Hes : es = snd (AddWords mt1 kvs)) by now rewrite Hrest.
    subst mt2 es.
    assert (Hnone : m !! NewHashFromBytes (vec_to_list k) = None).
    { rewrite (AddWord_represents m) in Hadd by exact Hrep.
      case_bool_decide as Hlive; [discriminate|].
      destruct (m !! _) eqn:E; [exfalso; apply Hlive; eauto|reflexivity]. }
    pose proof (AddWord_ok _ _ _ _ Hadd) as Hstep.
    destruct (AddWords_run kvs mt1 Hok) as [Hrun _].
    assert (Hrep1 : represents (apply_op (add_op (k, v)) m) mt1).
    { pose proof (step_represents m mt (add_op (k, v)) Hrep) as Hs.
      rewrite Hstep in Hs. cbn [fst snd] in Hs. apply Hs.
      eapply collision_free_suffix; [|exact Hcf]. rewrite Hrun. apply run_suffix. }
    destruct (IH _ _ Hrep1 Hok Hcf) as [Hnd Hfresh].
    cbn [add_op apply_op fst snd] in Hfresh.
    assert (Hk : k ∉ map fst kvs).
    { intros Hin. specialize (Hfresh _ Hin). now rewrite lookup_insert_eq in Hfresh. }
    split.
    + cbn [map fst]. apply NoDup_cons. split; assumption.
    + cbn [map fst]. intros k' Hin. apply elem_of_cons in Hin as [->|Hin]; [exact Hnone|].
      specialize (Hfresh _ Hin).
      destruct (decide (NewHashFromBytes (vec_to_list k) = NewHashFromBytes (vec_to_list k')))
        as [Heq|Hne].
      * rewrite Heq, lookup_insert_eq in Hfresh. discriminate.
      * now rewrite lookup_insert_ne in Hfresh by exact Hne.
Qed.

End OrderIndependence.

(** ** Operations that succeed *)

Section Totality.

Context {hasher : NodeHasher}.

(** The hash of a parent node does not fail. *)
Hypothesis parent_total : forall l r : Hash, exists h, parentHash l r = Ok h.

Lemma addNode_total (d : Database) (bit : bool) (child sibling : Hash) :
  exists d' h, addNode d (parent_of bit child sibling) = Ok (d', h).
Proof.
  unfold addNode, parent_of.
  destruct bit; cbn [NodeHash];
    [destruct (parent_total sibling child) as [h ->]
    |destruct (parent_total child sibling) as [h ->]];
    cbn [mbind result_bind]; eauto.
Qed.

(** [pushLeaf] succeeds when the two keys part within the levels left. *)
Lemma pushLeaf_total (d : Database) (newLeaf : Node) (lh key oldHash oldKey : Hash)
    (rem depth : nat) :
  is_Some (push_tree key lh oldKey oldHash rem depth) ->
  exists d' h', pushLeaf d newLeaf lh key oldHash oldKey rem depth = Ok (d', h').
Proof.
  revert depth. induction rem as [|rem IH]; intros depth; cbn [push_tree pushLeaf].
  - intros [x Hx]. discriminate.
  - destruct (Bool.eqb _ _).
    + destruct (push_tree key lh oldKey oldHash rem (S depth)) as [child|] eqn:Hrec;
        cbn [mbind option_bind]; [|intros [x Hx]; discriminate].
      intros _. destruct (IH (S depth)) as (d1 & c & ->); [rewrite Hrec; eauto|].
      cbn [mbind result_bind]. apply addNode_total.
    + intros _. apply addNode_total.
Qed.

(** [addLeaf] succeeds on a stored tree when the insertion stays within the
    levels left. *)
Lemma addLeaf_total (newLeaf : Node) (lh key : Hash) (t : tree) (rem depth : nat)
    (d : Database) (h : Hash) :
  stored d t -> tree_hash t = Ok h ->
  is_Some (insert_tree key lh rem depth t) ->
  exists d' h', addLeaf d newLeaf lh key rem depth h = Ok (d', h').
Proof.
  revert rem depth h.
  induction t as [|k lh0|l IHl r IHr]; intros rem depth h Hsto Hh Hins;
    rewrite addLeaf_unfold;
    pose proof (load_stored d _ h Hsto Hh) as Hload; cbn beta iota in Hload.
  - destruct Hload as [_ ->]. cbn [mbind result_bind]. eauto.
  - destruct Hload as (-> & _ & fl & vs & hint & ->). cbn [mbind result_bind].
    cbn [insert_tree] in Hins. case_bool_decide as Hk.
    + case_bool_decide; eauto.
    + now apply pushLeaf_total.
  - destruct Hload as (_ & hl & hr & -> & Hhl & Hhr & _). cbn [mbind result_bind].
    cbn [insert_tree] in Hins.
    destruct rem as [|rem]; [destruct Hins as [x Hx]; discriminate|].
    destruct Hsto as (Hsl & Hsr & _). cbv zeta.
    destruct (key_bit key depth).
    + destruct (IHr rem (S depth) hr Hsr Hhr) as (d1 & c & ->).
      { destruct (insert_tree key lh rem (S depth) r); [eauto|].
        destruct Hins as [x Hx]. discriminate. }
      cbn [mbind result_bind]. apply addNode_total.
    + destruct (IHl rem (S depth) hl Hsl Hhl) as (d1 & c & ->).
      { destruct (insert_tree key lh rem (S depth) l); [eauto|].
        destruct Hins as [x Hx]. discriminate. }
      cbn [mbind result_bind]. apply addNode_total.
Qed.

Lemma collapse_total (d : Database) (bit : bool) (child sibling : Hash) :
  exists d' h', collapse d bit child sibling = Ok (d', h').
Proof.
  unfold collapse.
  destruct (bool_decide (child = HashZero) && is_leaf d sibling); [eauto|].
  destruct (bool_decide (sibling = HashZero) && is_leaf d child); [eauto|].
  apply addNode_total.
Qed.

(** [rmLeaf] succeeds on a stored tree that has the key within the levels
    left. *)
Lemma rmLeaf_total (key : Hash) (t : tree) (rem depth : nat) (d : Database) (h : Hash) :
  stored d t -> tree_hash t = Ok h ->
  is_Some (remove_tree key rem depth t) ->
  exists d' h', rmLeaf d key rem depth h = Ok (d', h').
Proof.
  revert rem depth h.
  induction t as [|k lh0|l IHl r IHr]; intros rem depth h Hsto Hh Hrem;
    rewrite rmLeaf_unfold;
    pose proof (load_stored d _ h Hsto Hh) as Hload; cbn beta iota in Hload.
  - destruct Hrem as [x Hx]. discriminate.
  - destruct Hload as (_ & _ & fl & vs & hint & ->). cbn [mbind result_bind].
    cbn [remove_tree] in Hrem. case_bool_decide; [eauto|].
    destruct Hrem as [x Hx]. discriminate.
  - destruct Hload as (_ & hl & hr & -> & Hhl & Hhr & _). cbn [mbind result_bind].
    cbn [remove_tree] in Hrem.
    destruct rem as [|rem]; [destruct Hrem as [x Hx]; discriminate|].
    destruct Hsto as (Hsl & Hsr & _). cbv zeta.
    destruct (key_bit key depth).
    + destruct (IHr rem (S depth) hr Hsr Hhr) as (d1 & c & ->).
      { destruct (remove_tree key rem (S depth) r); [eauto|].
        destruct Hrem as [x Hx]. discriminate. }
      cbn [mbind result_bind]. apply collapse_total.
    + destruct (IHl rem (S depth) hl Hsl Hhl) as (d1 & c & ->).
      { destruct (remove_tree key rem (S depth) l); [eauto|].
        destruct Hrem as [x Hx]. discriminate. }
      cbn [mbind result_bind]. apply collapse_total.
Qed.

End Totality.

Section TreeTotality.

Context {hasher : NodeHasher}.

(** A canonical tree with a leaf is not empty, and one with leaves of two
    keys is a parent. *)
Lemma canonical_two_keys (depth : nat) (t : tree) (x y : Hash * Hash) :
  x ∈ leaves t -> y ∈ leaves t -> fst x <> fst y ->
  exists l r, t = TParent l r.
Proof.
  destruct t as [|k lh|l r]; cbn [leaves].
  - intros Hx. inversion Hx.
  - intros Hx Hy. apply list_elem_of_singleton in Hx, Hy. subst. congruence.
  - eauto.
Qed.

(** In a canonical parent a leaf lies on the side its key bit selects. *)
Lemma canonical_side (depth : nat) (l r : tree) (x : Hash * Hash) :
  canonical depth (TParent l r) -> x ∈ leaves (TParent l r) ->
  x ∈ leaves (if key_bit (fst x) depth then r else l).
Proof.
  intros (_ & _ & Hbl & Hbr & _). cbn [leaves]. rewrite elem_of_app.
  destruct x as [k lh]. cbn [fst]. intros [Hin|Hin].
  - now rewrite (Hbl _ _ Hin).
  - now rewrite (Hbr _ _ Hin).
Qed.

Lemma canonical_child (depth : nat) (l r : tree) (bit : bool) :
  canonical depth (TParent l r) -> canonical (S depth) (if bit then r else l).
Proof. intros (Hl & Hr & _). now destruct bit. Qed.

Lemma fits_child (rem : nat) (l r : tree) (bit : bool) :
  fits (S rem) (TParent l r) -> fits rem (if bit then r else l).
Proof. intros [Hl Hr]. now destruct bit. Qed.

(** A key of the tree can be removed within the levels of the tree. *)
Lemma remove_tree_total (key : Hash) (t : tree) (rem depth : nat) (lh : Hash) :
  canonical depth t -> fits rem t -> (key, lh) ∈ leaves t ->
  is_Some (remove_tree key rem depth t).
Proof.
  revert rem depth.
  induction t as [|k lh0|l IHl r IHr]; intros rem depth Hcan Hfit Hin.
  - inversion Hin.
  - apply list_elem_of_singleton in Hin as [= <- <-]. cbn [remove_tree].
    rewrite bool_decide_eq_true_2 by reflexivity. eauto.
  - destruct rem as [|rem]; [destruct Hfit|]. cbn [remove_tree].
    pose proof (canonical_side _ _ _ _ Hcan Hin) as Hside. cbn [fst] in Hside.
    pose proof (canonical_child _ _ _ (key_bit key depth) Hcan) as Hc.
    pose proof (fits_child _ _ _ (key_bit key depth) Hfit) as Hf.
    destruct (key_bit key depth).
    + destruct (IHr rem (S depth) Hc Hf Hside) as [r' ->]. cbn. eauto.
    + destruct (IHl rem (S depth) Hc Hf Hside) as [l' ->]. cbn. eauto.
Qed.

(** Two keys that are leaves of one tree within [rem] levels part within
    [rem] levels. *)
Lemma push_tree_total (key lh oldKey oldHash : Hash) (rem depth : nat) (T : tree) :
  canonical depth T -> fits rem T ->
  (key, lh) ∈ leaves T -> (oldKey, oldHash) ∈ leaves T -> key <> oldKey ->
  is_Some (push_tree key lh oldKey oldHash rem depth).
Proof.
  revert depth T. induction rem as [|rem IH]; intros depth T Hcan Hfit Hk Ho Hne;
    destruct (canonical_two_keys depth T _ _ Hk Ho Hne) as (l & r & ->).
  - destruct Hfit.
  - cbn [push_tree].
    pose proof (canonical_side _ _ _ _ Hcan Hk) as Hsk.
    pose proof (canonical_side _ _ _ _ Hcan Ho) as Hso. cbn [fst] in Hsk, Hso.
    destruct (Bool.eqb _ _) eqn:Hb; [|eauto].
    apply Bool.eqb_prop in Hb. rewrite <- Hb in Hso.
    destruct (IH (S depth) _ (canonical_child _ _ _ (key_bit key depth) Hcan)
                (fits_child _ _ _ (key_bit key depth) Hfit) Hsk Hso Hne) as [c ->].
    cbn. eauto.
Qed.

(** A key can be inserted within the levels of a tree that holds it
    together with the other leaves. *)
Lemma insert_tree_total (key lh : Hash) (t T : tree) (rem depth : nat) :
  canonical depth t -> canonical depth T -> fits rem T ->
  (key, lh) ∈ leaves T ->
  (forall x, x ∈ leaves t -> fst x <> key -> x ∈ leaves T) ->
  is_Some (insert_tree key lh rem depth t).
Proof.
  revert T rem depth.
  induction t as [|k lh0|l IHl r IHr]; intros T rem depth Hcan HcanT Hfit Hk Hsub;
    cbn [insert_tree].
  - eauto.
  - case_bool_decide as Hkk; [eauto|].
    eapply push_tree_total; eauto. apply Hsub; [left|exact Hkk].
  - assert (Hother : exists y, y ∈ leaves (TParent l r) /\ fst y <> key).
    { destruct (decide (Forall (fun y => fst y = key) (leaves (TParent l r))))
        as [Hall|Hex].
      - pose proof (canonical_same_key depth _ key Hcan) as Hlen.
        destruct Hcan as (_ & _ & _ & _ & H2). cbn [leaves] in *.
        rewrite Forall_forall in Hall. specialize (Hlen Hall). lia.
      - apply not_Forall_Exists in Hex; [|intros y; apply _].
        apply Exists_exists in Hex as (y & Hy & Hny). eauto. }
    destruct Hother as (y & Hy & Hny).
    destruct (canonical_two_keys depth T (key, lh) y Hk (Hsub _ Hy Hny))
      as (L & R & ->); [cbn; congruence|].
    destruct rem as [|rem]; [destruct Hfit|].
    pose proof (canonical_side _ _ _ _ HcanT Hk) as Hsk. cbn [fst] in Hsk.
    assert (Hsub' : forall x, x ∈ leaves (if key_bit key depth then r else l) ->
                      fst x <> key ->
                      x ∈ leaves (if key_bit key depth then R else L)).
    { intros x Hx Hnx.
      assert (Hxt : x ∈ leaves (TParent l r)).
      { cbn [leaves]. apply elem_of_app. destruct (key_bit key depth); auto. }
      pose proof (canonical_side _ _ _ _ HcanT (Hsub _ Hxt Hnx)) as HxT.
      pose proof (canonical_side _ _ _ _ Hcan Hxt) as Hxs.
      destruct Hcan as (_ & _ & Hbl & Hbr & _). destruct x as [kx lx].
      cbn [fst] in *. destruct (key_bit key depth) eqn:Hb.
      - rewrite (Hbr _ _ Hx) in HxT. exact HxT.
      - rewrite (Hbl _ _ Hx) in HxT. exact HxT. }
    pose proof (canonical_child _ _ _ (key_bit key depth) Hcan) as Hc.
    pose proof (canonical_child _ _ _ (key_bit key depth) HcanT) as HcT.
    pose proof (fits_child _ _ _ (key_bit key depth) Hfit) as Hf.
    destruct (key_bit key depth).
    + destruct (IHr R rem (S depth) Hc HcT Hf Hsk Hsub') as [r' ->]. cbn. eauto.
    + destruct (IHl L rem (S depth) Hc HcT Hf Hsk Hsub') as [l' ->]. cbn. eauto.
Qed.

(** The canonical tree of the leaves whose key is not in [ks] lies within
    the levels of the tree. *)
Lemma canonical_without (n : nat) (T : tree) (ks : list Hash) :
  canonical 0 T -> fits n T ->
  exists T', canonical 0 T' /\ fits n T' /\
             forall x, x ∈ leaves T' <-> x ∈ leaves T /\ fst x ∉ ks.
Proof.
  intros Hcan Hfit. induction ks as [|k ks IH].
  - exists T. split; [exact Hcan|]. split; [exact Hfit|].
    intros x. rewrite elem_of_nil. tauto.
  - destruct IH as (T1 & Hc1 & Hf1 & Hl1).
    destruct (decide (k ∈ map fst (leaves T1))) as [Hin|Hnin].
    + apply list_elem_of_In, in_map_iff in Hin as ([k' lh] & Hk & Hin).
      cbn in Hk. subst k'. apply list_elem_of_In in Hin.
      destruct (remove_tree_total k T1 n 0 lh Hc1 Hf1 Hin) as [T' Hrem].
      destruct (remove_tree_spec _ _ _ _ _ Hc1 Hrem) as (Hc' & Hl' & _).
      exists T'. split; [exact Hc'|].
      split; [eapply fits_remove_tree; eauto|].
      intros x. rewrite Hl', Hl1, not_elem_of_cons. tauto.
    + exists T1. split; [exact Hc1|]. split; [exact Hf1|].
      intros x. rewrite Hl1, not_elem_of_cons. split; [|tauto].
      intros [Hx Hnx]. split; [exact Hx|]. split; [|exact Hnx].
      intros Heq. apply Hnin. rewrite <- Heq. apply list_elem_of_In, in_map_iff.
      exists x. split; [reflexivity|]. apply list_elem_of_In, Hl1. tauto.
Qed.

End TreeTotality.

Section RunTotality.

Context {hasher : NodeHasher}.

Hypothesis parent_total : forall l r : Hash, exists h, parentHash l r = Ok h.

(** The pairs [m'] among the live pairs of a trie have a canonical tree
    within the levels of the trie. *)
Lemma represents_submap_tree (m m' : gmap Hash (Z * list Byte32)) (mt : ZkTrieImpl) :
  represents m mt -> m' ⊆ m ->
  exists T, canonical 0 T /\ fits (maxLevels mt) T /\
            forall k lh, (k, lh) ∈ leaves T <-> live_hash m' k = Some lh.
Proof.
  intros (t & Hcan & Hfit & _ & _ & Hleaves & _) Hsub.
  destruct (canonical_without (maxLevels mt) t (map fst (map_to_list (m ∖ m'))) Hcan Hfit)
    as (T & HcT & HfT & HlT).
  exists T. split; [exact HcT|]. split; [exact HfT|].
  intros k lh. rewrite HlT, Hleaves. cbn [fst].
  assert (Hks : k ∈ map fst (map_to_list (m ∖ m')) <-> is_Some ((m ∖ m') !! k)).
  { split.
    - intros Hin. apply list_elem_of_In, in_map_iff in Hin as ([k' x] & Hk & Hin).
      cbn in Hk. subst k'. apply list_elem_of_In, elem_of_map_to_list in Hin. eauto.
    - intros [x Hx]. apply list_elem_of_In, in_map_iff. exists (k, x).
      split; [reflexivity|]. now apply list_elem_of_In, elem_of_map_to_list. }
  rewrite Hks. unfold live_hash. split.
  - intros [Hl Hnot]. destruct (m !! k) as [[fl vs]|] eqn:Hm; [|discriminate].
    destruct (m' !! k) as [y|] eqn:Hm'.
    + rewrite (lookup_weaken _ _ _ _ Hm' Hsub) in Hm. injection Hm as ->. exact Hl.
    + exfalso. apply Hnot. exists (fl, vs). apply lookup_difference_Some. auto.
  - intros Hl. destruct (m' !! k) as [[fl vs]|] eqn:Hm'; [|discriminate].
    rewrite (lookup_weaken _ _ _ _ Hm' Hsub). split; [exact Hl|].
    intros [x Hx]. apply lookup_difference_Some in Hx as [_ Hx]. congruence.
Qed.

(** [TryUpdate] succeeds when the key is a field element, the leaf has a
    hash and the pairs after the update have a tree within [maxLevels]. *)
Lemma TryUpdate_total (m : gmap Hash (Z * list Byte32)) (mt : ZkTrieImpl)
    (key : Hash) (flags : Z) (vs : list Byte32) (lh : Hash) (T : tree) :
  represents m mt ->
  CheckBigIntInField (Hash_BigInt key) = true ->
  NodeHash (NodeLeaf key flags vs None) = Ok lh ->
  canonical 0 T -> fits (maxLevels mt) T ->
  (forall k lh', (k, lh') ∈ leaves T <->
                 live_hash (<[key := (flags, vs)]> m) k = Some lh') ->
  snd (TryUpdate mt key flags vs) = None.
Proof.
  intros (t & Hcan & Hfit & Hsto & Hhash & Hleaves & _) Hfield Hlh HcT HfT HlT.
  unfold TryUpdate. rewrite Hfield, Hlh. cbn [negb].
  destruct (addLeaf_total parent_total (NodeLeaf key flags vs None) lh key t
              (maxLevels mt) 0 (db mt) (rootHash mt) Hsto Hhash) as (d' & h' & ->);
    [|reflexivity].
  apply (insert_tree_total key lh t T); try assumption.
  - apply HlT. rewrite (live_hash_insert _ _ _ _ lh) by exact Hlh.
    now rewrite bool_decide_eq_true_2.
  - intros [k l0] Hx Hne. cbn [fst] in Hne. apply HlT.
    rewrite (live_hash_insert _ _ _ _ lh) by exact Hlh.
    rewrite bool_decide_eq_false_2 by exact Hne. now apply Hleaves.
Qed.

(** [TryDelete] succeeds on a live key. *)
Lemma TryDelete_total (m : gmap Hash (Z * list Byte32)) (mt : ZkTrieImpl) (key : Hash) :
  represents m mt -> is_Some (m !! key) -> snd (TryDelete mt key) = None.
Proof.
  intros (t & Hcan & Hfit & Hsto & Hhash & Hleaves & Hlive) Hkey.
  destruct (Hlive _ Hkey) as [lh Hlh]. apply Hleaves in Hlh.
  unfold TryDelete.
  destruct (rmLeaf_total parent_total key t (maxLevels mt) 0 (db mt) (rootHash mt)
              Hsto Hhash) as (d' & h' & ->); [|reflexivity].
  eapply remove_tree_total; eauto.
Qed.

Lemma TryUpdate_ok_field (mt : ZkTrieImpl) (key : Hash) (flags : Z) (vs : list Byte32) :
  snd (TryUpdate mt key flags vs) = None ->
  CheckBigIntInField (Hash_BigInt key) = true.
Proof.
  unfold TryUpdate. destruct (CheckBigIntInField _); [reflexivity|discriminate].
Qed.

(** The keys of a build that succeeded are field elements. *)
Lemma all_ok_fields (kvs : list (Byte32 * Byte32)) (mt : ZkTrieImpl) :
  all_ok (errors mt (map add_op kvs)) ->
  forall k v, (k, v) ∈ kvs ->
    CheckBigIntInField (Hash_BigInt (NewHashFromBytes (vec_to_list k))) = true.
Proof.
  revert mt. induction kvs as [|[k0 v0] kvs IH]; intros mt Hok k v Hin.
  - inversion Hin.
  - cbn [map errors] in Hok. apply Forall_cons in Hok as [Hhd Hok].
    apply elem_of_cons in Hin as [[= -> ->]|Hin]; [|eauto].
    cbn [add_op step fst snd] in Hhd. eapply TryUpdate_ok_field; eauto.
Qed.

Lemma AddWord_suffix (mt : ZkTrieImpl) (k v : Byte32) :
  db mt `suffix_of` db (fst (AddWord mt k v)) /\
  maxLevels (fst (AddWord mt k v)) = maxLevels mt.
Proof.
  unfold AddWord. destruct (fst (wrapper_TryGet mt (vec_to_list k)));
    [split; reflexivity|].
  apply (step_suffix mt (add_op (k, v))).
Qed.

Lemma AddWords_suffix (kvs : list (Byte32 * Byte32)) (mt : ZkTrieImpl) :
  db mt `suffix_of` db (fst (AddWords mt kvs)) /\
  maxLevels (fst (AddWords mt kvs)) = maxLevels mt.
Proof.
  revert mt. induction kvs as [|[k v] kvs IH]; intros mt; cbn [AddWords fst snd];
    [split; reflexivity|].
  destruct (AddWord_suffix mt k v) as [Hs Hm].
  destruct (AddWord mt k v) as [mt1 e]. cbn [fst] in *.
  destruct (IH mt1) as [Hs' Hm']. destruct (AddWords mt1 kvs) as [mt2 es].
  cbn [fst] in *. split; [etrans; eauto|congruence].
Qed.

(** Every [AddWord] of pairs with new, different keys succeeds when the
    pairs lie among the live pairs [mfin] of a trie with the same
    [maxLevels] and their keys are field elements. *)
Lemma AddWords_total (kvs : list (Byte32 * Byte32))
    (m mfin : gmap Hash (Z * list Byte32)) (mt mtf : ZkTrieImpl) :
  represents m mt -> represents mfin mtf -> maxLevels mtf = maxLevels mt ->
  m ⊆ mfin ->
  NoDup (map fst kvs) ->
  (forall k v, (k, v) ∈ kvs ->
     m !! NewHashFromBytes (vec_to_list k) = None /\
     mfin !! NewHashFromBytes (vec_to_list k) = Some (1, [v]) /\
     CheckBigIntInField (Hash_BigInt (NewHashFromBytes (vec_to_list k))) = true) ->
  collision_free (db (fst (AddWords mt kvs))) ->
  all_ok (snd (AddWords mt kvs)).
Proof.
  intros Hrep Hfin Hlev. revert m mt Hrep Hlev.
  induction kvs as [|[k v] kvs IH]; intros m mt Hrep Hlev Hsub Hnd Hkvs Hcf;
    cbn [AddWords fst snd] in *; [constructor|].
  destruct (Hkvs k v) as (Hnone & Hsome & Hfield); [left|].
  set (hk := NewHashFromBytes (vec_to_list k)) in *.
  pose proof (AddWords_suffix kvs (fst (AddWord mt k v))) as [Hsuf _].
  pose proof (AddWord_represents m mt k v Hrep) as Hadd. fold hk in Hadd.
  rewrite bool_decide_eq_false_2 in Hadd
    by (rewrite Hnone; intros [x Hx]; discriminate).
  assert (Hsub1 : <[hk := (1, [v])]> m ⊆ mfin) by now apply insert_subseteq_l.
  assert (Hlh : exists lh, NodeHash (NodeLeaf hk 1 [v] None) = Ok lh).
  { destruct Hfin as (_ & _ & _ & _ & _ & _ & Hlive).
    destruct (Hlive hk) as [lh Hl]; [eauto|]. unfold live_hash in Hl.
    rewrite Hsome in Hl. destruct (NodeHash _) as [lh'|]; [eauto|discriminate]. }
  destruct Hlh as [lh Hlh].
  destruct (represents_submap_tree mfin (<[hk := (1, [v])]> m) mtf Hfin Hsub1)
    as (T & HcT & HfT & HlT).
  rewrite Hlev in HfT.
  pose proof (TryUpdate_total m mt hk 1 [v] lh T Hrep Hfield Hlh HcT HfT HlT) as Hok.
  pose proof (step_represents m mt (add_op (k, v)) Hrep) as Hstep.
  cbn [add_op step fst snd] in Hstep. fold hk in Hstep.
  destruct (AddWord mt k v) as [mt1 e] eqn:HA. rewrite <- Hadd in Hok, Hstep.
  cbn [fst snd] in *. subst e.
  destruct (AddWords mt1 kvs) as [mt2 es] eqn:Hrest. cbn [fst snd] in *.
  constructor; [reflexivity|].
  assert (Hes : es = snd (AddWords mt1 kvs)) by now rewrite Hrest.
  assert (Hmt2 : mt2 = fst (AddWords mt1 kvs)) by now rewrite Hrest.
  subst es mt2.
  cbn [map fst] in Hnd. apply NoDup_cons in Hnd as [Hk Hnd].
  apply (IH (<[hk := (1, [v])]> m) mt1).
  - apply Hstep. eapply collision_free_suffix; eauto.
  - rewrite Hlev. pose proof (AddWord_suffix mt k v) as [_ Hm].
    rewrite HA in Hm. cbn [fst] in Hm. now rewrite Hm.
  - exact Hsub1.
  - exact Hnd.
  - intros k' v' Hin. destruct (Hkvs k' v') as (Hn' & Hs' & Hf'); [now right|].
    split; [|split; assumption].
    rewrite lookup_insert_ne; [exact Hn'|].
    intros Heq. apply NewHashFromBytes_word_inj in Heq. subst k'.
    apply Hk. apply list_elem_of_In, in_map_iff. exists (k, v').
    split; [reflexivity|]. now apply list_elem_of_In.
  - exact Hcf.
Qed.

(** Every [DeleteWord] of different live keys succeeds. *)
Lemma DeleteWords_total (ks : list Byte32) (m : gmap Hash (Z * list Byte32))
    (mt : ZkTrieImpl) :
  represents m mt ->
  NoDup ks ->
  (forall k, k ∈ ks -> is_Some (m !! NewHashFromBytes (vec_to_list k))) ->
  collision_free (db (run mt (map delete_op ks))) ->
  all_ok (errors mt (map delete_op ks)).
Proof.
  revert m mt. induction ks as [|k ks IH]; intros m mt Hrep Hnd Hlive Hcf;
    cbn [map errors run] in *; [constructor|].
  apply NoDup_cons in Hnd as [Hk Hnd].
  pose proof (TryDelete_total m mt _ Hrep (Hlive k ltac:(left))) as Hok.
  pose proof (step_represents m mt (delete_op k) Hrep) as Hstep.
  cbn [delete_op step] in *. rewrite Hok in Hstep. cbn [apply_op] in Hstep.
  constructor; [exact Hok|].
  eapply IH; [apply Hstep| exact Hnd | | exact Hcf].
  - eapply collision_free_suffix; [|exact Hcf]. apply run_suffix.
  - intros k' Hin. cbn [apply_op delete_op].
    rewrite lookup_delete_ne; [apply Hlive; now right|].
    intros Heq. apply NewHashFromBytes_word_inj in Heq. subst k'. contradiction.
Qed.

End RunTotality.

(** ** Order of insertion, and deletion against rebuilding *)

Section OrderAndRebuild.

Context {hasher : NodeHasher}.

(** What a build from the empty trie leaves when every [AddWord]
    succeeded: the keys are different field elements, and the trie holds the
    canonical tree of the pairs. *)
Lemma AddWords_built (n : nat) (kvs : list (Byte32 * Byte32)) :
  all_ok (snd (AddWords (fresh_trie n) kvs)) ->
  collision_free (db (fst (AddWords (fresh_trie n) kvs))) ->
  NoDup (map fst kvs) /\
  fst (AddWords (fresh_trie n) kvs) = run (fresh_trie n) (map add_op kvs) /\
  represents (foldl (fun m0 o => apply_op o m0) ∅ (map add_op kvs))
    (fst (AddWords (fresh_trie n) kvs)) /\
  (forall k v, (k, v) ∈ kvs ->
     CheckBigIntInField (Hash_BigInt (NewHashFromBytes (vec_to_list k))) = true).
Proof.
  intros Hok Hcf.
  destruct (AddWords_NoDup kvs ∅ _ (represents_empty n []) Hok Hcf) as [Hnd _].
  destruct (AddWords_run kvs _ Hok) as [Hrun Herr].
  destruct (AddWords_live kvs _ Hok) as [_ Hlive].
  split; [exact Hnd|]. split; [exact Hrun|]. split.
  - rewrite <- Hlive, Hrun. apply run_represents; [apply represents_empty|].
    now rewrite <- Hrun.
  - now apply (all_ok_fields kvs (fresh_trie n)).
Qed.

(** A build from the empty trie succeeds when its pairs, of different keys,
    are among the pairs of a build that succeeded. *)
Lemma AddWords_sub_total (n : nat) (kvs sub : list (Byte32 * Byte32)) :
  (forall l r : Hash, exists h, parentHash l r = Ok h) ->
  all_ok (snd (AddWords (fresh_trie n) kvs)) ->
  collision_free (db (fst (AddWords (fresh_trie n) kvs))) ->
  NoDup (map fst sub) -> (forall kv, kv ∈ sub -> kv ∈ kvs) ->
  collision_free (db (fst (AddWords (fresh_trie n) sub))) ->
  all_ok (snd (AddWords (fresh_trie n) sub)).
Proof.
  intros Htot Hok Hcf Hnd Hsub Hcf'.
  destruct (AddWords_built n kvs Hok Hcf) as (Hndk & _ & Hrep & Hfield).
  eapply (AddWords_total Htot sub ∅ _ (fresh_trie n)); try eassumption.
  - apply represents_empty.
  - apply (AddWords_suffix kvs (fresh_trie n)).
  - apply map_empty_subseteq.
  - intros k v Hin. split; [apply lookup_empty|]. split; [|eauto].
    apply lookup_adds; [exact Hndk|]. exists k, v. auto.
Qed.


Lemma filter_all_deleted (kvs : list (Byte32 * Byte32)) (ks : list Byte32) :
  (forall k, k ∈ map fst kvs -> k ∈ ks) ->
  filter (fun kv => fst kv ∉ ks) kvs = [].
Proof.
  induction kvs as [|[k v] kvs IH]; intros Hall; [reflexivity|].
  rewrite filter_cons. cbn [fst]. destruct (decide (k ∉ ks)) as [Hn|_].
  - exfalso. apply Hn, Hall. left.
  - apply IH. intros k' Hin. apply Hall. now right.
Qed.

Lemma NoDup_filter_keys (kvs : list (Byte32 * Byte32)) (ks : list Byte32) :
  NoDup (map fst kvs) -> NoDup (map fst (filter (fun kv => fst kv ∉ ks) kvs)).
Proof.
  induction kvs as [|[k v] kvs IH]; intros Hnd; [constructor|].
  cbn [map fst] in Hnd. apply NoDup_cons in Hnd as [Hk Hnd].
  rewrite filter_cons. cbn [fst]. destruct (decide (k ∉ ks)); [|auto].
  cbn [map fst]. apply NoDup_cons. split; [|auto].
  intros Hin. apply Hk. apply list_elem_of_In, in_map_iff in Hin as ([k' v'] & Heq & Hin).
  cbn in Heq. subst k'. apply list_elem_of_In, list_elem_of_filter in Hin as [_ Hin].
  apply list_elem_of_In, in_map_iff. exists (k, v'). split; [reflexivity|].
  now apply list_elem_of_In.
Qed.

Lemma deletes_filter (kvs : list (Byte32 * Byte32)) (ks : list Byte32) :
  NoDup (map fst kvs) ->
  foldl (fun m0 o => apply_op o m0)
    (foldl (fun m0 o => apply_op o m0) ∅ (map add_op kvs)) (map delete_op ks) =
  foldl (fun m0 o => apply_op o m0) ∅
    (map add_op (filter (fun kv => fst kv ∉ ks) kvs)).
Proof.
  intros Hnd. apply map_eq. intros h. apply option_eq. intros x.
  rewrite lookup_deletes, lookup_adds by now apply NoDup_filter_keys.
  case_bool_decide as Hin.
  - split; [discriminate|]. intros (k & v & Hkv & Hk & _).
    apply list_elem_of_filter in Hkv as [Hnot _]. cbn in Hnot. exfalso. subst h.
    apply list_elem_of_In, in_map_iff in Hin as (k' & Heq & Hin).
    apply NewHashFromBytes_word_inj in Heq. subst k'.
    now apply Hnot, list_elem_of_In.
  - rewrite lookup_adds by exact Hnd.
    split; intros (k & v & Hkv & Hk & Hx); exists k, v; repeat split; try assumption.
    + apply list_elem_of_filter. split; [|exact Hkv]. cbn. intros Hks.
      apply Hin. subst h. apply list_elem_of_In, in_map_iff. exists k.
      split; [reflexivity|]. now apply list_elem_of_In.
    + now apply list_elem_of_filter in Hkv as [_ ?].
Qed.


End OrderAndRebuild.

(** ** The scenarios of the test file, with the hook of the examples *)

Section TestFile.

#[local] Existing Instance toy_hasher.

(** [TestMerkleTree_Init]: a fresh trie has the zero root, and a root the
    store cannot resolve is refused. *)
Example test_Init :
  newZkTrieImpl [] 248 = Ok (fresh_trie 248) /\
  Root (fresh_trie 248) = HashZero /\
  NewZkTrieImplWithRoot [] (NewHashFromBytes [x01; x02; x03; x04; x05]) 248 =
    Err ErrNodeNotFound.
Proof. vm_compute. repeat split. Qed.

(** [TestMerkleTree_AddUpdateGetWord] *)
Example test_AddUpdateGetWord :
  let '(mt, es) := AddWords (fresh_trie 10)
    [(word x01, Byte32_lit x02); (word x03, Byte32_lit x04); (word x05, Byte32_lit x06)] in
  es = [None; None; None] /\
  GetLeafNodeByWord mt (word x01) =
    Ok (NodeLeaf (NewHashFromBytes (vec_to_list (word x01))) 1 [Byte32_lit x02] None) /\
  snd (AddWord mt (word x05) (Byte32_lit x07)) = Some ErrEntryIndexAlreadyExists /\
  (let '(mt', e) := UpdateWord mt (word x05) (Byte32_lit x09) in
   e = None /\
   GetLeafNodeByWord mt' (word x05) =
     Ok (NodeLeaf (NewHashFromBytes (vec_to_list (word x05))) 1 [Byte32_lit x09] None)) /\
  GetLeafNodeByWord mt (Byte32_lit x64) = Err ErrKeyNotFound.
Proof. vm_compute. repeat split. Qed.

(** [TestMerkleTree_Deletion], check root consistency: the keys 0 to 5 are
    added and deleted in reverse, and each deletion gives the root back. *)
Example test_Deletion_roots :
  let keys := [x00; x01; x02; x03; x04; x05] in
  let roots := map (fun n => Root (fst (AddWords (fresh_trie 10)
                     (map (fun b => (word b, Byte32_lit b)) (firstn n keys)))))
                   (seq 0 7) in
  let full := fst (AddWords (fresh_trie 10) (map (fun b => (word b, Byte32_lit b)) keys)) in
  map (fun n => Root (fst (DeleteWords full (map word (firstn n (rev keys))))))
      (seq 0 7) = rev roots.
Proof. vm_compute. reflexivity. Qed.

(** [TestMerkleTree_Deletion], check depth. *)
Example test_Deletion_depth :
  let key1 := word x43 in
  let key2 := word x83 in
  let key3 := word x13 in
  let key4 := word x04 in
  let mt1 := fst (AddWord (fresh_trie 10) key1 (Byte32_lit x43)) in
  let mt2 := fst (AddWord mt1 key2 (Byte32_lit x83)) in
  let mt3 := fst (DeleteWord mt2 key2) in
  let mt4 := fst (AddWord mt3 key2 (Byte32_lit x83)) in
  let mt5 := fst (AddWord mt4 key3 (Byte32_lit x13)) in
  let mt6 := fst (DeleteWord mt5 key3) in
  let mt7 := fst (AddWord mt6 key4 (Byte32_lit x04)) in
  let mt8 := fst (DeleteWord mt7 key4) in
  keyDepth mt2 key1 = Ok 8%nat /\ keyDepth mt2 key2 = Ok 8%nat /\
  keyDepth mt3 key1 = Ok 1%nat /\ Root mt3 = Root mt1 /\
  Root mt4 = Root mt2 /\ keyDepth mt4 key1 = Ok 8%nat /\
  keyDepth mt6 key1 = Ok 8%nat /\ Root mt6 = Root mt2 /\
  keyDepth mt7 key4 = Ok 2%nat /\ Root mt8 = Root mt2.
Proof. vm_compute. repeat split. Qed.

(** [TestZkTrieImpl_Add], the six orders of three keys, and adding twice. *)
Example test_Add_orders :
  root_after [x01; x02] = root_after [x02; x01] /\
  root_after [x01; x03; x02] = root_after [x01; x02; x03] /\
  root_after [x02; x01; x03] = root_after [x01; x02; x03] /\
  root_after [x02; x03; x01] = root_after [x01; x02; x03] /\
  root_after [x03; x01; x02] = root_after [x01; x02; x03] /\
  root_after [x03; x02; x01] = root_after [x01; x02; x03] /\
  snd (AddWords (fresh_trie 10)
         (map (fun b => (word b, word b)) [x01; x01; x02; x02])) =
    [None; Some ErrEntryIndexAlreadyExists; None; Some ErrEntryIndexAlreadyExists].
Proof. vm_compute. repeat split. Qed.

(** [TestZkTrieImpl_Update] *)
Example test_Update :
  let mt1 := fst (AddWord (fresh_trie 10) (word x01) (word x01)) in
  let mt2 := fst (AddWord (fresh_trie 10) (word x01) (word x02)) in
  let mt12 := fst (AddWord mt1 (word x02) (word x02)) in
  let mt13 := fst (AddWord mt1 (word x02) (word x03)) in
  Root (fst (UpdateWord mt2 (word x01) (word x01))) = Root mt1 /\
  Root (fst (UpdateWord mt13 (word x02) (word x02))) = Root mt12 /\
  UpdateWord mt1 (word x01) (word x01) = (mt1, None) /\
  snd (UpdateWord (fresh_trie 10) (word x01) (word x01)) = None /\
  GetLeafNodeByWord (fst (UpdateWord (fresh_trie 10) (word x01) (word x01))) (word x01) =
    Ok (NodeLeaf (NewHashFromBytes (vec_to_list (word x01))) 1 [word x01] None).
Proof. vm_compute. repeat split. Qed.

(** [TestZkTrieImpl_Delete] *)
Example test_Delete :
  let keys := [word x01; word x02; word x03; word x04] in
  let full := fst (AddWords (fresh_trie 10) (map (fun k => (k, word x01)) keys)) in
  let mt1 := fst (AddWord (fresh_trie 10) (word x01) (word x01)) in
  Root (fst (DeleteWord mt1 (word x01))) = HashZero /\
  Root (fst (DeleteWords full keys)) = HashZero /\
  Root (fst (DeleteWords full (rev keys))) = HashZero /\
  snd (DeleteWords mt1 [word x01; word x01]) = [None; Some ErrKeyNotFound] /\
  snd (DeleteWord (fresh_trie 10) (word x01)) = Some ErrKeyNotFound.
Proof. vm_compute. repeat split. Qed.

End TestFile.

(** ** The theorems at concrete inputs *)

(** The hook of the examples does not fail. *)
Lemma toy_scheme_field (xs : list Z) (acc : Z) :
  0 <= acc < Q ->
  0 <= fold_left (fun acc x => (acc * 1000003 + x + 1) mod Q) xs acc < Q.
Proof.
  revert acc. induction xs as [|x xs IH]; intros acc Hacc; cbn [fold_left];
    [exact Hacc|].
  apply IH. apply Z.mod_pos_bound. reflexivity.
Qed.

Lemma hash_with_toy_total (xs : list Z) : exists h, hash_with toy_scheme xs = Ok h.
Proof.
  unfold hash_with, toy_scheme.
  pose proof (toy_scheme_field xs 7 ltac:(split; [discriminate|reflexivity])) as [_ Hlt].
  apply CheckBigIntInField_lt in Hlt. rewrite Hlt. eauto.
Qed.

Lemma toy_parentHash_total (l r : Hash) :
  exists h, @parentHash toy_hasher l r = Ok h.
Proof. apply hash_with_toy_total. Qed.

Section Examples.

#[local] Existing Instance toy_hasher.



(** The key 5 is present after its insertion and absent before it. *)
Lemma AddWord_insert_only_witness :
  let mt := fst (AddWord (fresh_trie 10) (word x05) (word x06)) in
  AddWord mt (word x05) (word x07) = (mt, Some ErrEntryIndexAlreadyExists) /\
  AddWord (fresh_trie 10) (word x05) (word x06) =
  TryUpdate (fresh_trie 10) (NewHashFromBytes (vec_to_list (word x05))) 1 [word x06].
Proof.
  intros mt. split.
  - eapply (proj1 (AddWord_insert_only mt (word x05) (word x07))).
    vm_compute. reflexivity.
  - refine (proj2 (AddWord_insert_only (fresh_trie 10) (word x05) (word x06)) _).
    vm_compute. reflexivity.
Defined.



End Examples.

(** Without the assumption on collisions the order matters even when every
    insertion succeeds: under [colliding_hasher] the key 1 inserted first is
    written under the zero hash and is lost, inserted second it is kept. *)
Lemma collision_breaks_order_independence :
  let kvs1 := [(word x01, word x01); (word x02, word x02)] in
  let kvs2 := [(word x02, word x02); (word x01, word x01)] in
  let mt1 := AddWords (methods := @ZkTrieImpl_methods colliding_hasher) (fresh_trie 10) kvs1 in
  let mt2 := AddWords (methods := @ZkTrieImpl_methods colliding_hasher) (fresh_trie 10) kvs2 in
  all_ok (snd mt1) /\ all_ok (snd mt2) /\
  ~ collision_free (db (fst mt1)) /\
  Root (fst mt1) <> Root (fst mt2).
Proof.
  intros kvs1 kvs2 mt1 mt2. repeat split.
  - vm_compute. repeat constructor.
  - vm_compute. repeat constructor.
  - apply (bool_decide_eq_false_1 _). vm_compute. reflexivity.
  - apply (bool_decide_eq_false_1 _). vm_compute. reflexivity.
Qed.

(** Without the assumption on the hook the order matters even when every
    insertion succeeds in one order: under [failing_hasher] the key 3
    inserted after the key 1 needs a parent with an empty left child, whose
    hash fails, and it is not inserted; after the keys 1 and 2 it is. *)
Lemma failing_hash_breaks_order_independence :
  let kvs1 := [(word x01, word x01); (word x02, word x02); (word x03, word x03)] in
  let kvs2 := [(word x01, word x01); (word x03, word x03); (word x02, word x02)] in
  let mt1 := AddWords (methods := @ZkTrieImpl_methods failing_hasher) (fresh_trie 10) kvs1 in
  let mt2 := AddWords (methods := @ZkTrieImpl_methods failing_hasher) (fresh_trie 10) kvs2 in
  Permutation kvs1 kvs2 /\
  all_ok (snd mt1) /\
  collision_free (db (fst mt1)) /\ collision_free (db (fst mt2)) /\
  snd mt2 = [None; Some ErrInvalidField; None] /\
  Root (fst mt1) <> Root (fst mt2).
Proof.
  intros kvs1 kvs2 mt1 mt2.
  split; [apply perm_skip, perm_swap|].
  split; [vm_compute; repeat constructor|].
  split; [apply (bool_decide_unpack _); vm_compute; exact I|].
  split; [apply (bool_decide_unpack _); vm_compute; exact I|].
  split; [reflexivity|].
  apply (bool_decide_eq_false_1 _). vm_compute. reflexivity.
Qed.

(** The same hook against deletion: from the keys 1, 2 and 3, deleting the
    key 2 needs the parent with an empty left child again; the deletion
    fails and the root stays, and the build from the keys 1 and 3 loses the
    key 3. *)
Lemma failing_hash_breaks_delete_rebuild :
  let kvs := [(word x01, word x01); (word x02, word x02); (word x03, word x03)] in
  let ks := [word x02] in
  let rest := [(word x01, word x01); (word x03, word x03)] in
  let built := AddWords (methods := @ZkTrieImpl_methods failing_hasher) (fresh_trie 10) kvs in
  let deleted := DeleteWords (methods := @ZkTrieImpl_methods failing_hasher) (fst built) ks in
  let rebuilt := AddWords (methods := @ZkTrieImpl_methods failing_hasher) (fresh_trie 10) rest in
  rest = filter (fun kv => fst kv ∉ ks) kvs /\
  all_ok (snd built) /\
  collision_free (db (fst deleted)) /\ collision_free (db (fst rebuilt)) /\
  snd deleted = [Some ErrInvalidField] /\
  snd rebuilt = [None; Some ErrInvalidField] /\
  Root (fst deleted) <> Root (fst rebuilt).
Proof.
  intros kvs ks rest built deleted rebuilt.
  split; [reflexivity|].
  split; [vm_compute; repeat constructor|].
  split; [apply (bool_decide_unpack _); vm_compute; exact I|].
  split; [apply (bool_decide_unpack _); vm_compute; exact I|].
  split; [reflexivity|]. split; [reflexivity|].
  apply (bool_decide_eq_false_1 _). vm_compute. reflexivity.
Qed.
